(** * Huffman coding (src/main.cpp): a shallow embedding and its properties

    The program counts character frequencies of one line of text, builds a
    Huffman tree with a [std::priority_queue] of node pointers, derives the
    code table by a depth-first traversal, encodes the text by table lookup
    and decodes it again by walking the tree.

    Conventions of the embedding:
    - [std::string] is [list ascii]; a [char] is an [ascii].
    - [Node*] is the inductive [NodePtr]: either [nullptr] or the address of
      a node carrying the four fields of [struct Node].  Every node has one
      owner, so value semantics agrees with the pointer structure.
    - [int] is a [Z]; signed overflow is undefined behaviour in C++ and is
      reported as such.
    - [std::unordered_map] is a [gmap]; its iteration order and the order in
      which [std::priority_queue] serves equal frequencies are left to the
      standard library, which the record [StdLib] abstracts.
    - Undefined behaviour, the exception of [unordered_map::at] and an
      exhausted loop budget are the three ways a run can fail ([fault]). *)

From Stdlib Require Import ZArith Ascii String List Lia.
From stdpp Require Import base option list gmap strings.

Local Open Scope Z_scope.

(** ** Outcomes of a run *)

Inductive fault : Type :=
  | UndefinedBehaviour   (* null dereference, top() of an empty queue, int overflow *)
  | OutOfRange           (* std::out_of_range thrown by unordered_map::at *)
  | OutOfFuel.           (* loop budget of the model exhausted *)

Inductive res (A : Type) : Type :=
  | Ok (a : A)
  | Fail (e : fault).

Arguments Ok {A} a.
Arguments Fail {A} e.

#[global] Instance res_ret : MRet res := fun A a => Ok a.
#[global] Instance res_bind : MBind res := fun A B f m =>
  match m with
  | Ok a => f a
  | Fail e => Fail e
  end.

(** ** Strings and machine integers *)

Abbreviation str := (list ascii).

Definition lit (s : string) : str := list_ascii_of_string s.

Definition INT_MAX : Z := 2147483647.

(** [a + b] on [int]: overflow is undefined behaviour. *)
Definition add_int (a b : Z) : res Z :=
  if decide (- INT_MAX - 1 <= a + b <= INT_MAX) then Ok (a + b)
  else Fail UndefinedBehaviour.

(** ** struct Node and Node* *)

Inductive NodePtr : Type :=
  | nullptr
  | Node (ch : ascii) (freq : Z) (left right : NodePtr).

(** [new Node(c, f)]: both children start as [nullptr]. *)
Definition newNode (c : ascii) (f : Z) : NodePtr := Node c f nullptr nullptr.

Definition is_nullptr (p : NodePtr) : bool :=
  match p with
  | nullptr => true
  | Node _ _ _ _ => false
  end.

(** [p->freq] for a pointer known to be valid.  The queue only ever holds
    pointers returned by [new], see [merge_loop_spec]. *)
Definition node_freq (p : NodePtr) : Z :=
  match p with
  | nullptr => 0
  | Node _ f _ _ => f
  end.

(** [p->freq] where the program dereferences without a check. *)
Definition get_freq (p : NodePtr) : res Z :=
  match p with
  | nullptr => Fail UndefinedBehaviour
  | Node _ f _ _ => Ok f
  end.

(** [struct Compare]: [a->freq > b->freq]. *)
Definition Compare (a b : NodePtr) : bool := node_freq a >? node_freq b.

(** ** The standard library containers the program relies on

    [std::priority_queue<Node*, vector<Node*>, Compare>] and the iteration
    order of [std::unordered_map<char,int>] are not fixed by the language.
    An implementation is any structure obeying the contract of the standard:
    the queue holds what was pushed, [top] is an element that [Compare] ranks
    below no other, [pop] removes it, and iterating a map visits every entry
    once. *)

Record StdLib : Type := {
  priority_queue : Type;
  pq_contents : priority_queue -> list NodePtr;
  pq_new : priority_queue;
  pq_push : NodePtr -> priority_queue -> priority_queue;
  pq_top : priority_queue -> res NodePtr;
  pq_pop : priority_queue -> priority_queue;
  pq_size : priority_queue -> nat;
  umap_items : gmap ascii Z -> list (ascii * Z);
  pq_new_spec : pq_contents pq_new = [];
  pq_push_spec : forall x q, pq_contents (pq_push x q) ≡ₚ x :: pq_contents q;
  pq_size_spec : forall q, pq_size q = length (pq_contents q);
  pq_top_empty : forall q, pq_contents q = [] -> pq_top q = Fail UndefinedBehaviour;
  pq_top_spec : forall q, pq_contents q <> [] ->
    exists x, pq_top q = Ok x /\
      (forall y, y ∈ pq_contents q -> Compare x y = false) /\
      pq_contents q ≡ₚ x :: pq_contents (pq_pop q);
  umap_items_spec : forall m, umap_items m ≡ₚ map_to_list m
}.

(** A reference implementation: the queue is a vector scanned for the first
    element of least frequency. *)
Fixpoint extract_min (q : list NodePtr) : option (NodePtr * list NodePtr) :=
  match q with
  | [] => None
  | x :: q' =>
      match extract_min q' with
      | None => Some (x, [])
      | Some (m, rest) => if Compare x m then Some (m, x :: rest) else Some (x, q')
      end
  end.

Definition scan_top (q : list NodePtr) : res NodePtr :=
  match extract_min q with
  | None => Fail UndefinedBehaviour
  | Some (m, _) => Ok m
  end.

Definition scan_pop (q : list NodePtr) : list NodePtr :=
  match extract_min q with
  | None => []
  | Some (_, rest) => rest
  end.

(** ** main, lines 101-105: the frequency table *)

(** [freq[ch]++]: an absent key is value-initialised to 0 first. *)
Definition incr (ch : ascii) (freq : gmap ascii Z) : res (gmap ascii Z) :=
  v ← add_int (default 0 (freq !! ch)) 1;
  Ok (<[ch := v]> freq).

Fixpoint count_loop (text : str) (freq : gmap ascii Z) : res (gmap ascii Z) :=
  match text with
  | [] => Ok freq
  | ch :: rest => freq' ← incr ch freq; count_loop rest freq'
  end.

Definition count_freq (text : str) : res (gmap ascii Z) := count_loop text ∅.

(** ** main, lines 107-129: the tree builder *)

Section Builder.
Variable L : StdLib.

(** Lines 112-114: one leaf per entry of the table. *)
Definition fill_queue (freq : gmap ascii Z) : priority_queue L :=
  foldl (fun pq p => pq_push L (newNode p.1 p.2) pq) (pq_new L) (umap_items L freq).

(** Lines 118-126: one round of the while loop. *)
Definition merge_step (pq : priority_queue L) : res (priority_queue L) :=
  left ← pq_top L pq;
  let pq1 := pq_pop L pq in
  right ← pq_top L pq1;
  let pq2 := pq_pop L pq1 in
  lf ← get_freq left;
  rf ← get_freq right;
  f ← add_int lf rf;
  Ok (pq_push L (Node zero f left right) pq2).

(** Line 117: [while (pq.size() > 1)]. *)
Fixpoint merge_loop (fuel : nat) (pq : priority_queue L) : res (priority_queue L) :=
  if decide (1 < pq_size L pq)%nat then
    match fuel with
    | O => Fail OutOfFuel
    | S fuel' => pq' ← merge_step pq; merge_loop fuel' pq'
    end
  else Ok pq.

(** Lines 109-129; every round shrinks the queue by one, so its initial
    size is a sufficient budget. *)
Definition build_tree (freq : gmap ascii Z) : res NodePtr :=
  let pq := fill_queue freq in
  pq' ← merge_loop (pq_size L pq) pq;
  pq_top L pq'.
End Builder.

(** ** buildCodes, lines 37-51 *)

Fixpoint buildCodes (node : NodePtr) (code : str) (codes : gmap ascii str)
  : gmap ascii str :=
  match node with
  | nullptr => codes
  | Node ch _ l r =>
      if is_nullptr l && is_nullptr r then <[ch := code]> codes
      else buildCodes r (code ++ ["1"%char])
             (buildCodes l (code ++ ["0"%char]) codes)
  end.

(** ** encode, lines 55-63 *)

Fixpoint encode_loop (text : str) (codes : gmap ascii str) (result : str) : res str :=
  match text with
  | [] => Ok result
  | ch :: rest =>
      match codes !! ch with
      | None => Fail OutOfRange
      | Some c => encode_loop rest codes (result ++ c)
      end
  end.

Definition encode (text : str) (codes : gmap ascii str) : res str :=
  encode_loop text codes [].

(** ** decode, lines 67-86 *)

(** [current->left] or [current->right]. *)
Definition child (bit : ascii) (current : NodePtr) : res NodePtr :=
  match current with
  | nullptr => Fail UndefinedBehaviour
  | Node _ _ l r => if decide (bit = "0"%char) then Ok l else Ok r
  end.

(** Lines 79-82; reading [current->left] dereferences [current]. *)
Definition arrive (root current : NodePtr) (result : str) : res (NodePtr * str) :=
  match current with
  | nullptr => Fail UndefinedBehaviour
  | Node ch _ l r =>
      if is_nullptr l && is_nullptr r then Ok (root, result ++ [ch])
      else Ok (current, result)
  end.

Definition decode_step (root : NodePtr) (st : NodePtr * str) (bit : ascii)
  : res (NodePtr * str) :=
  current ← child bit st.1;
  arrive root current st.2.

Fixpoint decode_loop (root : NodePtr) (encoded : str) (st : NodePtr * str)
  : res (NodePtr * str) :=
  match encoded with
  | [] => Ok st
  | bit :: rest => st' ← decode_step root st bit; decode_loop root rest st'
  end.

Definition decode (encoded : str) (root : NodePtr) : res str :=
  st ← decode_loop root encoded (root, []);
  Ok st.2.

(** ** main, lines 96-153

    What main prints: the code table, the encoded stream and the decoded
    text.  [freeTree] (lines 89-94 and 150) only releases the nodes after the
    last output and is left out. *)

Record output : Type := {
  out_codes : gmap ascii str;
  out_encoded : str;
  out_decoded : str
}.

Definition main (L : StdLib) (text : str) : res output :=
  freq ← count_freq text;
  root ← build_tree L freq;
  let codes := buildCodes root [] ∅ in
  encoded ← encode text codes;
  decoded ← decode encoded root;
  Ok {| out_codes := codes; out_encoded := encoded; out_decoded := decoded |}.

(** ** Vocabulary of the specification *)

(** A leaf is a node without children (lines 41 and 79). *)
Definition is_leaf (p : NodePtr) : bool :=
  match p with
  | nullptr => false
  | Node _ _ l r => is_nullptr l && is_nullptr r
  end.

(** Strict binary tree: every node has no child or two. *)
Fixpoint strict (p : NodePtr) : bool :=
  match p with
  | nullptr => false
  | Node _ _ l r => (is_nullptr l && is_nullptr r) || (strict l && strict r)
  end.

(** Every internal node carries the sum of its children's frequencies. *)
Fixpoint sums_ok (p : NodePtr) : bool :=
  match p with
  | nullptr => true
  | Node _ f l r =>
      (is_nullptr l && is_nullptr r)
      || (bool_decide (f = node_freq l + node_freq r) && sums_ok l && sums_ok r)
  end.

Definition extend (bit : ascii) (e : ascii * Z * str) : ascii * Z * str :=
  (e.1.1, e.1.2, bit :: e.2).

(** The leaves from left to right: symbol, frequency and path from the root,
    ['0'] for a left edge and ['1'] for a right edge. *)
Fixpoint leaf_list (p : NodePtr) : list (ascii * Z * str) :=
  match p with
  | nullptr => []
  | Node ch f l r =>
      if is_nullptr l && is_nullptr r then [(ch, f, [])]
      else map (extend "0") (leaf_list l) ++ map (extend "1") (leaf_list r)
  end.

Definition leaves (p : NodePtr) : list (ascii * Z) := map fst (leaf_list p).

Definition leaf_count (p : NodePtr) : nat := length (leaf_list p).

Definition sumZ (l : list Z) : Z := foldr Z.add 0 l.

(** Weighted path length of a tree. *)
Definition cost (p : NodePtr) : Z :=
  sumZ (map (fun e => e.1.2 * Z.of_nat (length e.2)) (leaf_list p)).

Definition binary (s : str) : Prop :=
  Forall (fun c => c = "0"%char \/ c = "1"%char) s.

(** [freq(s) * length(code(s))] summed over the symbols of the table. *)
Definition weighted_length (freq : gmap ascii Z) (code : ascii -> str) : Z :=
  sumZ (map (fun p => p.2 * Z.of_nat (length (code p.1))) (map_to_list freq)).

Definition code_of (codes : gmap ascii str) (s : ascii) : str :=
  default [] (codes !! s).

(** A binary prefix code for the symbols of a frequency table. *)
Definition prefix_code (freq : gmap ascii Z) (code : ascii -> str) : Prop :=
  (forall s, s ∈ dom freq -> binary (code s)) /\
  (forall s1 s2, s1 ∈ dom freq -> s2 ∈ dom freq -> s1 <> s2 ->
     ~ code s1 `prefix_of` code s2).

(** How decode reads a character: ['0'] goes left, anything else right. *)
Definition as_bit (c : ascii) : ascii :=
  if decide (c = "0"%char) then "0"%char else "1"%char.

(** ** Notions used by the proofs *)

(** Number of occurrences of a character in a text. *)
Definition occ (c : ascii) (text : str) : Z :=
  Z.of_nat (length (filter (fun x => x = c) text)).

(** [freq] is the frequency table of [text]. *)
Definition counts (text : str) (freq : gmap ascii Z) : Prop :=
  forall c, freq !! c = if decide (c ∈ text) then Some (occ c text) else None.

(** The shape of every tree that is ever in the queue: leaves of positive
    frequency, internal nodes with two such subtrees and their sum. *)
Inductive htree : NodePtr -> Prop :=
  | htree_leaf c f : 0 < f -> htree (Node c f nullptr nullptr)
  | htree_node c f l r :
      htree l -> htree r -> f = node_freq l + node_freq r -> htree (Node c f l r).

(** Huffman's algorithm on bare weights, for any way of breaking ties:
    [hcost ws c] when repeatedly merging two least weights of [ws] down to a
    single weight can add up merged weights to [c]. *)
Inductive hcost : list Z -> Z -> Prop :=
  | hcost_one w : hcost [w] 0
  | hcost_step ws a b rest c :
      ws ≡ₚ a :: b :: rest ->
      (forall x, x ∈ b :: rest -> a <= x) ->
      (forall x, x ∈ rest -> b <= x) ->
      hcost ((a + b) :: rest) c ->
      hcost ws (a + b + c).

(** Leaf depths of strict binary trees, as multisets. *)
Inductive treeable : list nat -> Prop :=
  | treeable_leaf : treeable [0%nat]
  | treeable_node l1 l2 l :
      treeable l1 -> treeable l2 -> l ≡ₚ map S (l1 ++ l2) -> treeable l.

(** Weighted path length of a list of weights paired with depths. *)
Definition pcost (pd : list (Z * nat)) : Z :=
  sumZ (map (fun p => p.1 * Z.of_nat p.2) pd).

(** No word of the list is a prefix of a word at another position. *)
Fixpoint prefix_free (cs : list str) : Prop :=
  match cs with
  | [] => True
  | c :: cs' =>
      Forall (fun c' => ~ c `prefix_of` c' /\ ~ c' `prefix_of` c) cs' /\ prefix_free cs'
  end.

(** Cost of a list of weighted code words. *)
Definition code_cost (wc : list (Z * str)) : Z :=
  sumZ (map (fun p => p.1 * Z.of_nat (length p.2)) wc).

(** The words starting with ['0'] and the others, first character removed. *)
Fixpoint split_codes (wc : list (Z * str)) : list (Z * str) * list (Z * str) :=
  match wc with
  | [] => ([], [])
  | (w, c) :: wc' =>
      let zo := split_codes wc' in
      match c with
      | [] => zo
      | b :: c' =>
          if decide (b = "0"%char) then ((w, c') :: zo.1, zo.2)
          else (zo.1, (w, c') :: zo.2)
      end
  end.

(** Depth profile of a tree: frequency and depth of every leaf. *)
Definition profile (t : NodePtr) : list (Z * nat) :=
  map (fun e => (e.1.2, length e.2)) (leaf_list t).

(** What the traversal does at one leaf. *)
Definition record_code (code : str) (codes : gmap ascii str) (e : ascii * Z * str)
  : gmap ascii str := <[e.1.1 := code ++ e.2]> codes.

(** The tree the reference containers build for "abracadabra". *)
Definition example_tree : NodePtr :=
  Node zero 11
    (newNode "a" 5)
    (Node zero 6
       (Node zero 2 (newNode "c" 1) (newNode "d" 1))
       (Node zero 4 (newNode "r" 2) (newNode "b" 2))).

(** The frequency table of "abracadabra". *)
Definition example_freq : gmap ascii Z :=
  {[ "a"%char := 5; "b"%char := 2; "r"%char := 2; "c"%char := 1; "d"%char := 1 ]}.

(** ** freeTree, lines 89-94

    The free store is the list of the nodes that are allocated and not yet
    released; a node is identified with its value. *)

#[global] Instance NodePtr_eq_dec : EqDecision NodePtr.
Proof. solve_decision. Defined.

(** [delete node]: releasing a node that is not allocated is undefined
    behaviour. *)
Fixpoint delete_node (node : NodePtr) (heap : list NodePtr) : res (list NodePtr) :=
  match heap with
  | [] => Fail UndefinedBehaviour
  | q :: heap' =>
      if decide (node = q) then Ok heap'
      else heap'' ← delete_node node heap'; Ok (q :: heap'')
  end.

Fixpoint freeTree (node : NodePtr) (heap : list NodePtr) : res (list NodePtr) :=
  match node with
  | nullptr => Ok heap
  | Node ch f l r =>
      heap1 ← freeTree l heap;
      heap2 ← freeTree r heap1;
      delete_node (Node ch f l r) heap2
  end.

(** The nodes reachable from a pointer, the pointed node first. *)
Fixpoint nodes (p : NodePtr) : list NodePtr :=
  match p with
  | nullptr => []
  | Node ch f l r => Node ch f l r :: nodes l ++ nodes r
  end.

(** The symbols at the leaves of a tree. *)
Definition symbols (p : NodePtr) : list ascii := map (fun e => e.1.1) (leaf_list p).

(** The code table with the codes of two symbols exchanged. *)
Definition swap_codes (code : ascii -> str) (s1 s2 s : ascii) : str :=
  if decide (s = s1) then code s2
  else if decide (s = s2) then code s1
  else code s.

(** * Properties *)

(** ** The reference containers obey the contract *)

Lemma extract_min_nil (q : list NodePtr) : extract_min q = None -> q = [].
Proof.
  destruct q as [|x q]; simpl; [done|].
  destruct (extract_min q) as [[m rest]|]; [|done].
  by destruct (Compare x m).
Qed.

Lemma extract_min_perm (q : list NodePtr) m rest :
  extract_min q = Some (m, rest) -> q ≡ₚ m :: rest.
Proof.
  revert m rest. induction q as [|x q IH]; intros m rest; simpl; [done|].
  destruct (extract_min q) as [[m' rest']|] eqn:E.
  - destruct (Compare x m'); intros [= <- <-].
    + rewrite (IH _ _ eq_refl). apply Permutation_swap.
    + done.
  - intros [= <- <-]. by rewrite (extract_min_nil _ E).
Qed.

Lemma extract_min_least (q : list NodePtr) m rest :
  extract_min q = Some (m, rest) -> forall y, y ∈ q -> Compare m y = false.
Proof.
  revert m rest.
  induction q as [|x q IH]; intros m rest; simpl; [by intros _ y ?%elem_of_nil|].
  destruct (extract_min q) as [[m' rest']|] eqn:E.
  - pose proof (IH _ _ eq_refl) as IH'.
    destruct (Compare x m') eqn:C; intros [= <- <-] y Hy;
      apply elem_of_cons in Hy as [->|Hy]; try apply IH' in Hy;
      unfold Compare in *; lia.
  - intros [= <- <-] y Hy. rewrite (extract_min_nil _ E) in Hy.
    apply elem_of_cons in Hy as [->|Hy%elem_of_nil]; [unfold Compare; lia|done].
Qed.

Lemma scan_top_spec (q : list NodePtr) :
  q <> [] ->
  exists x, scan_top q = Ok x /\
    (forall y, y ∈ q -> Compare x y = false) /\ q ≡ₚ x :: scan_pop q.
Proof.
  intros Hq. unfold scan_top, scan_pop.
  destruct (extract_min q) as [[m rest]|] eqn:E.
  - exists m. split; [done|]. split; [by eapply extract_min_least|].
    by apply extract_min_perm.
  - by apply extract_min_nil in E.
Qed.

Lemma scan_top_empty (q : list NodePtr) :
  q = [] -> scan_top q = Fail UndefinedBehaviour.
Proof. by intros ->. Qed.

(** The scanning vector queue together with [map_to_list] as iteration order. *)
Definition ScanLib : StdLib := {|
  priority_queue := list NodePtr;
  pq_contents := fun q => q;
  pq_new := [];
  pq_push := fun x q => q ++ [x];
  pq_top := scan_top;
  pq_pop := scan_pop;
  pq_size := fun q => length q;
  umap_items := map_to_list;
  pq_new_spec := eq_refl;
  pq_push_spec := fun x q => Permutation_sym (Permutation_cons_append q x);
  pq_size_spec := fun q => eq_refl;
  pq_top_empty := scan_top_empty;
  pq_top_spec := scan_top_spec;
  umap_items_spec := fun m => Permutation_refl _
|}.

(** ** The outcome monad *)

Lemma bind_Ok {A B} (m : res A) (f : A -> res B) (b : B) :
  m ≫= f = Ok b <-> exists a, m = Ok a /\ f a = Ok b.
Proof.
  destruct m as [a|e]; simpl; split.
  - intros H. by exists a.
  - by intros (a' & [= <-] & H).
  - done.
  - by intros (a' & [=] & _).
Qed.

(** ** Degenerate alphabets: no symbol, one symbol *)

Section Degenerate.
Variable L : StdLib.

Lemma push_all_contents (l : list (ascii * Z)) (q : priority_queue L) :
  pq_contents L (foldl (fun pq p => pq_push L (newNode p.1 p.2) pq) q l)
  ≡ₚ map (fun p => newNode p.1 p.2) l ++ pq_contents L q.
Proof.
  revert q. induction l as [|p l IH]; intros q; simpl; [done|].
  rewrite IH, pq_push_spec. by rewrite Permutation_middle.
Qed.

Lemma fill_queue_contents (freq : gmap ascii Z) :
  pq_contents L (fill_queue L freq)
  ≡ₚ map (fun p => newNode p.1 p.2) (map_to_list freq).
Proof.
  unfold fill_queue. rewrite push_all_contents, pq_new_spec, app_nil_r.
  by rewrite umap_items_spec.
Qed.

Lemma merge_loop_small (fuel : nat) (pq : priority_queue L) :
  (length (pq_contents L pq) <= 1)%nat -> merge_loop L fuel pq = Ok pq.
Proof.
  intros H. rewrite <- pq_size_spec in H.
  destruct fuel; simpl; case_decide; done || lia.
Qed.

Lemma pq_top_single (pq : priority_queue L) (x : NodePtr) :
  pq_contents L pq = [x] -> pq_top L pq = Ok x.
Proof.
  intros H. destruct (pq_top_spec L pq) as (y & Hy & _ & Hp); [by rewrite H|].
  rewrite H in Hp. apply Permutation_singleton_l in Hp.
  by injection Hp as -> _.
Qed.

Lemma build_tree_empty : build_tree L ∅ = Fail UndefinedBehaviour.
Proof.
  pose proof (fill_queue_contents ∅) as H.
  rewrite map_to_list_empty in H. apply Permutation_nil_r in H.
  unfold build_tree. simpl. rewrite merge_loop_small by (rewrite H; simpl; lia).
  simpl. by apply pq_top_empty.
Qed.

Lemma build_tree_single (c : ascii) (f : Z) :
  build_tree L {[c := f]} = Ok (newNode c f).
Proof.
  pose proof (fill_queue_contents {[c := f]}) as H.
  rewrite map_to_list_singleton in H. apply Permutation_singleton_r in H.
  unfold build_tree. simpl. rewrite merge_loop_small by (rewrite H; simpl; lia).
  simpl. by apply pq_top_single.
Qed.
End Degenerate.

(** ** Sums *)

Lemma sumZ_app (l1 l2 : list Z) : sumZ (l1 ++ l2) = sumZ l1 + sumZ l2.
Proof. unfold sumZ. induction l1 as [|x l1 IH]; simpl; lia. Qed.

Lemma sumZ_perm (l1 l2 : list Z) : l1 ≡ₚ l2 -> sumZ l1 = sumZ l2.
Proof. unfold sumZ. induction 1; simpl; lia. Qed.

#[global] Instance sumZ_proper : Proper (Permutation ==> eq) sumZ.
Proof. intros l1 l2. apply sumZ_perm. Qed.

Lemma sumZ_nonneg (l : list Z) : Forall (fun x => 0 <= x) l -> 0 <= sumZ l.
Proof. unfold sumZ. induction 1; simpl; lia. Qed.

(** ** Trees of the builder *)

Lemma htree_nonnull (t : NodePtr) : htree t -> is_nullptr t = false.
Proof. by destruct 1. Qed.

Lemma htree_strict (t : NodePtr) : htree t -> strict t = true.
Proof.
  induction 1 as [|c f l r _ IHl _ IHr _]; simpl; [done|].
  rewrite IHl, IHr. apply orb_true_r.
Qed.

Lemma htree_sums_ok (t : NodePtr) : htree t -> sums_ok t = true.
Proof.
  induction 1 as [|c f l r _ IHl _ IHr Hf]; simpl; [done|].
  rewrite IHl, IHr, bool_decide_eq_true_2 by done. apply orb_true_r.
Qed.

Lemma leaf_list_node (c : ascii) (f : Z) (l r : NodePtr) :
  htree l ->
  leaf_list (Node c f l r)
  = map (extend "0") (leaf_list l) ++ map (extend "1") (leaf_list r).
Proof. intros Hl. simpl. by rewrite (htree_nonnull l Hl). Qed.

Lemma htree_freq (t : NodePtr) :
  htree t -> node_freq t = sumZ (map snd (leaves t)) /\ 0 < node_freq t.
Proof.
  unfold leaves.
  induction 1 as [c f Hf|c f l r Hl [IHl IHl'] Hr [IHr IHr'] ->].
  - simpl. unfold sumZ. simpl. lia.
  - rewrite leaf_list_node by done. simpl node_freq.
    rewrite !map_app, !map_map, sumZ_app. simpl.
    split; [|lia]. by rewrite IHl, IHr, !map_map.
Qed.

Lemma cost_leaf (c : ascii) (f : Z) : cost (newNode c f) = 0.
Proof. unfold cost, sumZ. simpl. lia. Qed.

Lemma cost_extend (bit : ascii) (l : list (ascii * Z * str)) :
  sumZ (map (fun e => e.1.2 * Z.of_nat (length e.2)) (map (extend bit) l))
  = sumZ (map (fun e => e.1.2 * Z.of_nat (length e.2)) l) + sumZ (map snd (map fst l)).
Proof.
  unfold sumZ. induction l as [|[[c f] p] l IH]; simpl in *; [done|].
  rewrite IH. lia.
Qed.

Lemma cost_node (c : ascii) (f : Z) (l r : NodePtr) :
  htree l -> htree r ->
  cost (Node c f l r) = cost l + cost r + node_freq l + node_freq r.
Proof.
  intros Hl Hr. unfold cost. rewrite leaf_list_node by done.
  rewrite map_app, sumZ_app, !cost_extend.
  destruct (htree_freq l Hl) as [-> _], (htree_freq r Hr) as [-> _].
  unfold leaves. lia.
Qed.

Lemma leaves_node (c : ascii) (f : Z) (l r : NodePtr) :
  htree l -> leaves (Node c f l r) = leaves l ++ leaves r.
Proof.
  intros Hl. unfold leaves. rewrite leaf_list_node by done.
  rewrite map_app, !map_map. by f_equal; apply map_ext; intros [[??]?].
Qed.

(** ** Huffman on weights does not depend on the order of the weights *)

Lemma hcost_perm (ws ws' : list Z) (c : Z) :
  hcost ws c -> ws ≡ₚ ws' -> hcost ws' c.
Proof.
  destruct 1 as [w|ws a b rest c Hp Ha Hb Hc]; intros H.
  - apply Permutation_singleton_l in H. subst ws'. constructor.
  - eapply hcost_step; eauto. by rewrite <- H.
Qed.

#[global] Instance hcost_proper : Proper (Permutation ==> eq ==> iff) hcost.
Proof.
  intros ws ws' H c ? <-.
  split; intros Hc; (eapply hcost_perm; [exact Hc|]); [done|by symmetry].
Qed.

(** ** The merge loop *)

Section MergeLoop.
Variable L : StdLib.

Abbreviation weights := (map node_freq).
Abbreviation forest_leaves := (flat_map leaves).

Lemma weights_pos (F : list NodePtr) :
  Forall htree F -> Forall (fun x => 0 <= x) (weights F).
Proof.
  intros H. apply Forall_map. eapply Forall_impl; [exact H|].
  intros t Ht. simpl. destruct (htree_freq t Ht). lia.
Qed.

Lemma get_freq_htree (t : NodePtr) : htree t -> get_freq t = Ok (node_freq t).
Proof. by destruct 1. Qed.

Lemma pq_top_least (pq : priority_queue L) :
  pq_contents L pq <> [] ->
  exists x, pq_top L pq = Ok x /\
    pq_contents L pq ≡ₚ x :: pq_contents L (pq_pop L pq) /\
    forall y, y ∈ pq_contents L pq -> node_freq x <= node_freq y.
Proof.
  intros H. destruct (pq_top_spec L pq H) as (x & Hx & Hmin & Hp).
  exists x. repeat split; [done..|].
  intros y Hy. specialize (Hmin y Hy). unfold Compare in Hmin. lia.
Qed.

(** One round takes two least trees out and puts their union back, unless
    the sum of their frequencies overflows. *)
Lemma merge_step_spec (pq : priority_queue L) :
  (2 <= length (pq_contents L pq))%nat ->
  Forall htree (pq_contents L pq) ->
  exists x y pq2,
    pq_contents L pq ≡ₚ x :: y :: pq_contents L pq2 /\
    (forall z, z ∈ y :: pq_contents L pq2 -> node_freq x <= node_freq z) /\
    (forall z, z ∈ pq_contents L pq2 -> node_freq y <= node_freq z) /\
    merge_step L pq
    = (f ← add_int (node_freq x) (node_freq y);
       Ok (pq_push L (Node zero f x y) pq2)).
Proof.
  intros Hlen HF.
  destruct (pq_top_least pq) as (x & Hx & Hp & Hmin).
  { intros E. rewrite E in Hlen. simpl in Hlen. lia. }
  set (pq1 := pq_pop L pq) in *.
  destruct (pq_top_least pq1) as (y & Hy & Hp1 & Hmin1).
  { intros E. rewrite Hp, E in Hlen. simpl in Hlen. lia. }
  set (pq2 := pq_pop L pq1) in *.
  assert (Hall : pq_contents L pq ≡ₚ x :: y :: pq_contents L pq2)
    by (by rewrite Hp, Hp1).
  rewrite Hall in HF.
  apply Forall_cons in HF as [Htx HF]. apply Forall_cons in HF as [Hty HF].
  exists x, y, pq2. split; [done|]. split; [|split].
  - intros z Hz. apply Hmin. rewrite Hp, Hp1. by apply elem_of_cons; right.
  - intros z Hz. apply Hmin1. rewrite Hp1. by apply elem_of_cons; right.
  - unfold merge_step. rewrite Hx. simpl. fold pq1. rewrite Hy. simpl.
    by rewrite (get_freq_htree x Htx), (get_freq_htree y Hty).
Qed.

Lemma add_int_Ok (a b f : Z) : add_int a b = Ok f -> f = a + b.
Proof. unfold add_int. case_decide; by intros [= <-]. Qed.

Lemma add_int_fits (a b : Z) :
  0 <= a -> 0 <= b -> a + b <= INT_MAX -> add_int a b = Ok (a + b).
Proof.
  intros. unfold add_int. rewrite decide_True; [done|]. unfold INT_MAX in *. lia.
Qed.

(** The loop ends when the sums fit an [int]; whenever it ends, one tree is
    left, it has the leaves the queue started with, and its cost is what
    the queue held plus the merged weights. *)
Lemma merge_loop_spec (fuel : nat) (pq : priority_queue L) :
  pq_contents L pq <> [] ->
  Forall htree (pq_contents L pq) ->
  ((length (pq_contents L pq) <= S fuel)%nat ->
   sumZ (weights (pq_contents L pq)) <= INT_MAX ->
   exists pq', merge_loop L fuel pq = Ok pq') /\
  (forall pq', merge_loop L fuel pq = Ok pq' ->
   exists root c,
     pq_contents L pq' = [root] /\
     htree root /\
     leaves root ≡ₚ forest_leaves (pq_contents L pq) /\
     hcost (weights (pq_contents L pq)) c /\
     cost root = sumZ (map cost (pq_contents L pq)) + c).
Proof.
  revert pq. induction fuel as [|fuel IH]; intros pq Hne HF;
    (destruct (decide (length (pq_contents L pq) <= 1)%nat) as [Hsmall|Hbig];
     [rewrite merge_loop_small by done; split; [by eauto|];
      intros pq' [= <-];
      destruct (pq_contents L pq) as [|root [|??]] eqn:E;
        [done| |simpl in Hsmall; lia];
      apply Forall_cons in HF as [Hroot _]; exists root, 0;
      simpl; rewrite app_nil_r;
      repeat split; try done; [constructor|unfold sumZ; simpl; lia]
     |]).
  - simpl. rewrite decide_True by (rewrite pq_size_spec; lia).
    split; [lia|done].
  - destruct (merge_step_spec pq) as (x & y & pq2 & Hp & Hx & Hy & Hstep);
      [lia|done|].
    simpl. rewrite decide_True by (rewrite pq_size_spec; lia). rewrite Hstep.
    rewrite Hp in HF.
    apply Forall_cons in HF as [Htx HF]. apply Forall_cons in HF as [Hty HF].
    destruct (htree_freq x Htx) as [_ Hx0], (htree_freq y Hty) as [_ Hy0].
    pose proof (weights_pos _ HF) as Hpos%sumZ_nonneg.
    destruct (add_int (node_freq x) (node_freq y)) as [f|e] eqn:Hadd.
    + apply add_int_Ok in Hadd as ->. simpl.
      set (n := Node zero (node_freq x + node_freq y) x y).
      set (pq1 := pq_push L n pq2).
      assert (Hp1 : pq_contents L pq1 ≡ₚ n :: pq_contents L pq2)
        by apply pq_push_spec.
      assert (Hn : htree n) by (by constructor).
      destruct (IH pq1) as [IHA IHB].
      { intros E. rewrite E in Hp1. by apply Permutation_nil_cons in Hp1. }
      { rewrite Hp1. by constructor. }
      split.
      * intros Hlen Hsum. apply IHA.
        -- rewrite Hp1. rewrite Hp in Hlen. simpl in *. lia.
        -- rewrite Hp1. rewrite Hp in Hsum. unfold sumZ in *. simpl in *. lia.
      * intros pq' Hloop.
        destruct (IHB pq' Hloop) as (root & c & Hc & Hroot & Hlv & Hh & Hcost).
        exists root, (node_freq x + node_freq y + c).
        split; [done|split; [done|split; [|split]]].
        -- rewrite Hlv, Hp1, Hp. simpl. unfold n. rewrite leaves_node by done.
           by rewrite <- app_assoc.
        -- eapply hcost_step with (rest := weights (pq_contents L pq2)).
           ++ by rewrite Hp.
           ++ intros w Hw. change (w ∈ weights (y :: pq_contents L pq2)) in Hw.
              apply list_elem_of_fmap in Hw as (z & -> & Hz). by apply Hx.
           ++ intros w Hw. apply list_elem_of_fmap in Hw as (z & -> & Hz). by apply Hy.
           ++ eapply hcost_perm; [exact Hh|]. by rewrite Hp1.
        -- rewrite Hcost, Hp1, Hp. simpl. unfold n. rewrite cost_node by done.
           unfold sumZ. simpl. lia.
    + simpl. split; [|done]. intros _ Hsum. rewrite Hp in Hsum.
      unfold sumZ in Hsum, Hpos. simpl in Hsum.
      rewrite add_int_fits in Hadd; [done|lia..].
Qed.
End MergeLoop.

(** ** The frequency counter *)

Lemma occ_nil (c : ascii) : occ c [] = 0.
Proof. done. Qed.

Lemma occ_cons (c x : ascii) (text : str) :
  occ c (x :: text) = (if decide (x = c) then 1 else 0) + occ c text.
Proof.
  unfold occ. rewrite filter_cons. case_decide; simpl length; lia.
Qed.

Lemma occ_app (c : ascii) (t1 t2 : str) : occ c (t1 ++ t2) = occ c t1 + occ c t2.
Proof. unfold occ. rewrite filter_app, length_app. lia. Qed.

Lemma occ_nonneg (c : ascii) (text : str) : 0 <= occ c text.
Proof. unfold occ. lia. Qed.

Lemma occ_pos (c : ascii) (text : str) : c ∈ text -> 0 < occ c text.
Proof.
  intros (t1 & t2 & ->)%list_elem_of_split.
  rewrite occ_app, occ_cons, decide_True by done.
  pose proof (occ_nonneg c t1). pose proof (occ_nonneg c t2). lia.
Qed.

Lemma occ_le_length (c : ascii) (text : str) : occ c text <= Z.of_nat (length text).
Proof. unfold occ. pose proof (length_filter (fun x => x = c) text). lia. Qed.

Lemma occ_notin (c : ascii) (text : str) : c ∉ text -> occ c text = 0.
Proof.
  induction text as [|x text IH]; intros H; [done|].
  apply not_elem_of_cons in H as [H1 H2].
  rewrite occ_cons, decide_False by done. rewrite IH by done. lia.
Qed.

Lemma counts_nil : counts [] ∅.
Proof. intros c. rewrite lookup_empty, decide_False; [done|]. apply not_elem_of_nil. Qed.

Lemma counts_default (text : str) (freq : gmap ascii Z) (c : ascii) :
  counts text freq -> default 0 (freq !! c) = occ c text.
Proof.
  intros H. rewrite (H c). case_decide; simpl; [done|]. by rewrite occ_notin.
Qed.

Lemma incr_counts (seen : str) (freq freq' : gmap ascii Z) (ch : ascii) :
  counts seen freq -> incr ch freq = Ok freq' -> counts (seen ++ [ch]) freq'.
Proof.
  intros H. unfold incr, add_int. rewrite (counts_default seen freq ch H).
  case_decide; simpl; [|done]. intros [= <-] c.
  rewrite occ_app, occ_cons, occ_nil.
  destruct (decide (ch = c)) as [->|Hne].
  - rewrite lookup_insert_eq, decide_True by (apply elem_of_app; right; by left).
    f_equal; lia.
  - rewrite lookup_insert_ne, (H c) by done.
    destruct (decide (c ∈ seen)) as [Hin|Hin].
    + rewrite decide_True by (apply elem_of_app; by left). f_equal; lia.
    + rewrite decide_False; [done|].
      intros [?|?%list_elem_of_singleton]%elem_of_app; congruence.
Qed.

Lemma incr_ok (seen : str) (freq : gmap ascii Z) (ch : ascii) :
  counts seen freq -> Z.of_nat (length seen) < INT_MAX ->
  exists freq', incr ch freq = Ok freq'.
Proof.
  intros H Hlen. unfold incr, add_int. rewrite (counts_default seen freq ch H).
  pose proof (occ_le_length ch seen). pose proof (occ_nonneg ch seen).
  rewrite decide_True by (unfold INT_MAX in *; lia). simpl. eauto.
Qed.

Lemma count_loop_counts (text seen : str) (freq freq' : gmap ascii Z) :
  counts seen freq -> count_loop text freq = Ok freq' -> counts (seen ++ text) freq'.
Proof.
  revert seen freq. induction text as [|ch text IH]; intros seen freq H; simpl.
  - intros [= <-]. by rewrite app_nil_r.
  - intros (freq1 & H1 & H2)%bind_Ok.
    rewrite (cons_middle ch seen text), app_assoc.
    eapply IH; [|exact H2]. by eapply incr_counts.
Qed.

Lemma count_loop_ok (text seen : str) (freq : gmap ascii Z) :
  counts seen freq -> Z.of_nat (length (seen ++ text)) <= INT_MAX ->
  exists freq', count_loop text freq = Ok freq'.
Proof.
  revert seen freq. induction text as [|ch text IH]; intros seen freq H Hlen; simpl.
  - eauto.
  - rewrite length_app in Hlen. simpl in Hlen.
    destruct (incr_ok seen freq ch H) as [freq1 H1]; [lia|].
    rewrite H1. simpl. apply (IH (seen ++ [ch])).
    + by eapply incr_counts.
    + rewrite !length_app. simpl. lia.
Qed.

Lemma count_freq_counts (text : str) (freq : gmap ascii Z) :
  count_freq text = Ok freq -> counts text freq.
Proof. intros H. by apply (count_loop_counts text [] ∅ freq counts_nil). Qed.

Lemma count_freq_ok (text : str) :
  Z.of_nat (length text) <= INT_MAX -> exists freq, count_freq text = Ok freq.
Proof. intros H. by apply (count_loop_ok text [] ∅ counts_nil). Qed.

Lemma counts_dom (text : str) (freq : gmap ascii Z) (c : ascii) :
  counts text freq -> c ∈ dom freq <-> c ∈ text.
Proof.
  intros H. rewrite elem_of_dom, (H c). case_decide; split; try done.
Qed.

Lemma counts_pos (text : str) (freq : gmap ascii Z) (c : ascii) (v : Z) :
  counts text freq -> freq !! c = Some v -> 0 < v.
Proof.
  intros H. rewrite (H c). case_decide; [|done]. intros [= <-]. by apply occ_pos.
Qed.

Lemma counts_nonempty (text : str) (freq : gmap ascii Z) :
  counts text freq -> text <> [] -> freq <> ∅.
Proof.
  intros H Hne ->. destruct text as [|c text]; [done|].
  specialize (H c). rewrite lookup_empty, decide_True in H by by left. done.
Qed.

(** Summing over the text is summing over the table, entry by entry. *)
Lemma sum_filter_split (g : ascii -> Z) (i : ascii) (text : str) :
  sumZ (map g text)
  = occ i text * g i + sumZ (map g (filter (fun x => x <> i) text)).
Proof.
  induction text as [|x text IH]; [done|].
  rewrite occ_cons, filter_cons. change (sumZ (map g (x :: text))) with (g x + sumZ (map g text)).
  rewrite IH. destruct (decide (x = i)) as [->|Hne].
  - rewrite decide_False by (by intros ?). lia.
  - rewrite decide_True by done. change (sumZ (map g (x :: ?l))) with (g x + sumZ (map g l)). lia.
Qed.

Lemma counts_filter (text : str) (freq : gmap ascii Z) (i : ascii) (x : Z) :
  freq !! i = None -> counts text (<[i := x]> freq) ->
  counts (filter (fun c => c <> i) text) freq /\ x = occ i text.
Proof.
  intros Hi H. split.
  - intros c. destruct (decide (c = i)) as [->|Hne].
    + rewrite Hi, decide_False; [done|]. by intros [? _]%list_elem_of_filter.
    + specialize (H c). rewrite lookup_insert_ne in H by done. rewrite H.
      assert (Hocc : occ c (filter (fun c => c <> i) text) = occ c text).
      { clear H. induction text as [|y text IH]; [done|].
        rewrite filter_cons. case_decide as Hy.
        - by rewrite !occ_cons, IH.
        - subst y. rewrite occ_cons, decide_False by done. lia. }
      destruct (decide (c ∈ text)) as [Hin|Hin].
      * rewrite decide_True by (by apply list_elem_of_filter). by rewrite Hocc.
      * rewrite decide_False; [done|]. by intros [_ ?]%list_elem_of_filter.
  - specialize (H i). rewrite lookup_insert_eq in H. case_decide; congruence.
Qed.

Lemma counts_sum (g : ascii -> Z) (freq : gmap ascii Z) (text : str) :
  counts text freq ->
  sumZ (map g text) = sumZ (map (fun p => p.2 * g p.1) (map_to_list freq)).
Proof.
  revert text. induction freq as [|i x freq Hi IH] using map_ind; intros text H.
  - rewrite map_to_list_empty. destruct text as [|c text]; [done|].
    specialize (H c). rewrite lookup_empty, decide_True in H by by left. done.
  - destruct (counts_filter text freq i x Hi H) as [H' ->].
    rewrite map_to_list_insert by done. simpl.
    rewrite (sum_filter_split g i text), (IH _ H'). done.
Qed.

Lemma counts_total (freq : gmap ascii Z) (text : str) :
  counts text freq -> sumZ (map snd (map_to_list freq)) = Z.of_nat (length text).
Proof.
  intros H. pose proof (counts_sum (fun _ => 1) freq text H) as Hs.
  assert (E1 : sumZ (map (fun _ : ascii => 1) text) = Z.of_nat (length text)).
  { clear. unfold sumZ. induction text; simpl length; simpl foldr; lia. }
  rewrite E1 in Hs. rewrite Hs. f_equal. apply map_ext. intros [??]. simpl. lia.
Qed.

(** ** The tree builder *)

Lemma build_tree_spec (L : StdLib) (freq : gmap ascii Z) :
  (forall c v, freq !! c = Some v -> 0 < v) ->
  (freq <> ∅ -> sumZ (map snd (map_to_list freq)) <= INT_MAX ->
   exists root, build_tree L freq = Ok root) /\
  (forall root, build_tree L freq = Ok root ->
   htree root /\ leaves root ≡ₚ map_to_list freq /\
   hcost (map snd (map_to_list freq)) (cost root)).
Proof.
  intros Hpos.
  destruct (decide (freq = ∅)) as [->|Hne].
  { rewrite build_tree_empty. by split. }
  pose proof (fill_queue_contents L freq) as HF.
  unfold build_tree. simpl.
  set (pq := fill_queue L freq) in *.
  set (mk := fun p : ascii * Z => newNode p.1 p.2) in *.
  assert (Hw : map node_freq (map mk (map_to_list freq)) = map snd (map_to_list freq)).
  { rewrite map_map. by apply map_ext; intros [??]. }
  assert (Hc : sumZ (map cost (map mk (map_to_list freq))) = 0).
  { rewrite map_map. generalize (map_to_list freq). intros l.
    induction l as [|[c v] l IH]; [done|].
    change (cost (mk (c, v)) + sumZ (map (fun x => cost (mk x)) l) = 0).
    rewrite IH. unfold mk. simpl. rewrite cost_leaf. lia. }
  assert (Hl : flat_map leaves (map mk (map_to_list freq)) = map_to_list freq).
  { generalize (map_to_list freq). intros l.
    induction l as [|[c v] l IH]; [done|]. simpl. by rewrite IH. }
  destruct (merge_loop_spec L (pq_size L pq) pq) as [HA HB].
  { intros E. rewrite E in HF. symmetry in HF. apply Permutation_nil_r in HF.
    apply map_eq_nil in HF. by apply map_to_list_empty_iff in HF. }
  { rewrite HF. apply Forall_map, Forall_forall. intros [k v] Hkv.
    apply elem_of_map_to_list in Hkv. constructor. by eapply Hpos. }
  assert (Hfin : forall pq' root, merge_loop L (pq_size L pq) pq = Ok pq' ->
            pq_top L pq' = Ok root ->
            htree root /\ leaves root ≡ₚ map_to_list freq /\
            hcost (map snd (map_to_list freq)) (cost root)).
  { intros pq' root Hloop Htop.
    destruct (HB pq' Hloop) as (root' & c & Hroot & Ht & Hlv & Hh & Hcost).
    rewrite (pq_top_single L pq' root' Hroot) in Htop. injection Htop as ->.
    rewrite HF in Hlv, Hh, Hcost. rewrite Hl in Hlv. rewrite Hw in Hh.
    rewrite Hc in Hcost. rewrite Hcost. done. }
  split.
  - intros _ Hsum. destruct HA as [pq' Hloop].
    + rewrite pq_size_spec. lia.
    + by rewrite HF, Hw.
    + destruct (HB pq' Hloop) as (root & c & Hroot & _).
      exists root. rewrite Hloop. simpl. by apply pq_top_single.
  - intros root (pq' & Hloop & Htop)%bind_Ok. by eapply Hfin.
Qed.

(** A non-empty text that fits an [int] yields a table and a tree. *)
Lemma build_from_text (L : StdLib) (text : str) :
  text <> [] -> Z.of_nat (length text) <= INT_MAX ->
  exists freq root, count_freq text = Ok freq /\ build_tree L freq = Ok root.
Proof.
  intros Hne Hlen. destruct (count_freq_ok text Hlen) as [freq Hfreq].
  pose proof (count_freq_counts text freq Hfreq) as Hc.
  destruct (build_tree_spec L freq) as [HA _].
  - intros c v. by apply (counts_pos text).
  - destruct HA as [root Hroot].
    + by eapply counts_nonempty.
    + by rewrite (counts_total freq text).
    + by exists freq, root.
Qed.

(** Whenever main gets past the builder, the tree has one leaf per entry of
    the table and its cost is what Huffman's algorithm yields. *)
Lemma build_tree_inv (L : StdLib) (text : str) (freq : gmap ascii Z) (root : NodePtr) :
  count_freq text = Ok freq -> build_tree L freq = Ok root ->
  counts text freq /\ htree root /\ leaves root ≡ₚ map_to_list freq /\
  hcost (map snd (map_to_list freq)) (cost root).
Proof.
  intros Hfreq Hroot.
  pose proof (count_freq_counts text freq Hfreq) as Hc.
  destruct (build_tree_spec L freq) as [_ HB].
  - intros c v. by apply (counts_pos text).
  - split; [done|]. by apply HB.
Qed.

(** ** The code table *)

Lemma foldl_record_extend (bit : ascii) (code : str) (l : list (ascii * Z * str))
    (codes : gmap ascii str) :
  foldl (record_code code) codes (map (extend bit) l)
  = foldl (record_code (code ++ [bit])) codes l.
Proof.
  revert codes. induction l as [|e l IH]; intros codes; simpl; [done|].
  rewrite IH. unfold record_code. simpl. by rewrite <- app_assoc.
Qed.

(** The traversal inserts the leaves from left to right. *)
Lemma buildCodes_foldl (t : NodePtr) (code : str) (codes : gmap ascii str) :
  buildCodes t code codes = foldl (record_code code) codes (leaf_list t).
Proof.
  revert code codes. induction t as [|ch f l IHl r IHr]; intros code codes; simpl; [done|].
  destruct (is_nullptr l && is_nullptr r).
  - simpl. unfold record_code. simpl. by rewrite app_nil_r.
  - by rewrite foldl_app, !foldl_record_extend, IHl, IHr.
Qed.

Lemma foldl_record_notin (code : str) (l : list (ascii * Z * str))
    (codes : gmap ascii str) (c : ascii) :
  (forall e, e ∈ l -> e.1.1 <> c) ->
  foldl (record_code code) codes l !! c = codes !! c.
Proof.
  revert codes. induction l as [|e l IH]; intros codes H; simpl; [done|].
  rewrite IH by (intros e' He'; apply H; by right).
  unfold record_code. apply lookup_insert_ne, H. by left.
Qed.

Lemma foldl_record_in (code : str) (l : list (ascii * Z * str))
    (codes : gmap ascii str) (e : ascii * Z * str) :
  NoDup (map (fun e => e.1.1) l) -> e ∈ l ->
  foldl (record_code code) codes l !! e.1.1 = Some (code ++ e.2).
Proof.
  revert codes. induction l as [|x l IH]; intros codes Hnd He; simpl.
  - by apply elem_of_nil in He.
  - simpl in Hnd. apply NoDup_cons in Hnd as [Hx Hnd].
    apply elem_of_cons in He as [->|He].
    + rewrite foldl_record_notin.
      * unfold record_code. apply lookup_insert_eq.
      * intros e' He' Heq. apply Hx. rewrite <- Heq.
        by apply (list_elem_of_fmap_2 (fun e => e.1.1)).
    + by apply IH.
Qed.

Lemma buildCodes_lookup (t : NodePtr) (c : ascii) (p : str) :
  NoDup (map fst (leaves t)) ->
  buildCodes t [] ∅ !! c = Some p <-> exists f, (c, f, p) ∈ leaf_list t.
Proof.
  intros Hnd. unfold leaves in Hnd. rewrite map_map in Hnd.
  rewrite buildCodes_foldl. split.
  - intros H. destruct (decide (c ∈ map (fun e => e.1.1) (leaf_list t))) as [Hin|Hin].
    + apply list_elem_of_fmap in Hin as ([[c' f] p'] & -> & He).
      rewrite (foldl_record_in [] _ ∅ _ Hnd He) in H. simpl in H.
      injection H as <-. by exists f.
    + rewrite foldl_record_notin in H; [done|].
      intros e He <-. apply Hin. by apply (list_elem_of_fmap_2 (fun e => e.1.1)).
  - intros [f He]. by rewrite (foldl_record_in [] _ ∅ _ Hnd He).
Qed.

(** ** Paths are binary and prefix-free *)

Lemma leaf_list_binary (t : NodePtr) :
  Forall (fun e => binary e.2) (leaf_list t).
Proof.
  induction t as [|ch f l IHl r IHr]; simpl; [constructor|].
  destruct (is_nullptr l && is_nullptr r).
  - repeat constructor.
  - apply Forall_app. split; apply Forall_map; (eapply Forall_impl; [eassumption|]);
      intros e He; constructor; auto.
Qed.

Lemma prefix_free_elem {A} (key : A -> str) (l : list A) (e1 e2 : A) :
  prefix_free (map key l) -> e1 ∈ l -> e2 ∈ l ->
  key e1 `prefix_of` key e2 -> e1 = e2.
Proof.
  induction l as [|x l IH]; simpl; intros Hpf H1 H2 Hp.
  - by apply elem_of_nil in H1.
  - destruct Hpf as [Hx Hl]. rewrite Forall_map, Forall_forall in Hx.
    apply elem_of_cons in H1 as [->|H1], H2 as [->|H2]; [done| | |by apply IH].
    + by destruct (Hx e2 H2).
    + by destruct (Hx e1 H1).
Qed.

Lemma prefix_free_app (l1 l2 : list str) :
  prefix_free l1 -> prefix_free l2 ->
  (forall c1 c2, c1 ∈ l1 -> c2 ∈ l2 -> ~ c1 `prefix_of` c2 /\ ~ c2 `prefix_of` c1) ->
  prefix_free (l1 ++ l2).
Proof.
  induction l1 as [|c l1 IH]; simpl; intros H1 H2 Hx; [done|].
  destruct H1 as [Hc H1]. split.
  - apply Forall_app. split; [done|]. apply Forall_forall. intros c2 Hc2.
    apply Hx; [by left|done].
  - apply IH; [done..|]. intros c1 c2 Hc1 Hc2. apply Hx; [by right|done].
Qed.

Lemma prefix_free_cons_map (bit : ascii) (l : list str) :
  prefix_free l -> prefix_free (map (cons bit) l).
Proof.
  induction l as [|c l IH]; simpl; intros H; [done|]. destruct H as [Hc H].
  split; [|by apply IH]. apply Forall_map. eapply Forall_impl; [exact Hc|].
  intros c' [N1 N2]. simpl.
  split; intros Hp; [apply N1|apply N2]; by eapply prefix_cons_inv_2.
Qed.

Lemma leaf_list_prefix_free (t : NodePtr) : prefix_free (map snd (leaf_list t)).
Proof.
  induction t as [|ch f l IHl r IHr]; simpl; [done|].
  destruct (is_nullptr l && is_nullptr r); [by repeat constructor|].
  rewrite map_app, !map_map. simpl.
  rewrite <- !(map_map snd (cons _)).
  apply prefix_free_app; [by apply prefix_free_cons_map..|].
  intros c1 c2 (p1 & -> & _)%list_elem_of_fmap (p2 & -> & _)%list_elem_of_fmap.
  split; intros Hp; by apply prefix_cons_inv_1 in Hp.
Qed.

(** ** encode *)

Lemma encode_loop_ok (text : str) (codes : gmap ascii str) (result : str) :
  (forall ch, ch ∈ text -> is_Some (codes !! ch)) ->
  encode_loop text codes result
  = Ok (result ++ concat (map (code_of codes) text)).
Proof.
  revert result. induction text as [|ch text IH]; intros result H; simpl.
  - by rewrite app_nil_r.
  - destruct (H ch) as [c Hc]; [by left|]. unfold code_of at 1. rewrite Hc. simpl.
    rewrite IH by (intros ch' Hch'; apply H; by right). by rewrite app_assoc.
Qed.

Lemma encode_loop_fail (text : str) (codes : gmap ascii str) (result : str) (e : fault) :
  encode_loop text codes result = Fail e ->
  e = OutOfRange /\ exists ch, ch ∈ text /\ codes !! ch = None.
Proof.
  revert result. induction text as [|ch text IH]; intros result; simpl; [done|].
  destruct (codes !! ch) as [c|] eqn:Hc.
  - intros (-> & ch' & Hin & Hnone)%IH. split; [done|]. exists ch'. split; [by right|done].
  - intros [= <-]. split; [done|]. exists ch. split; [by left|done].
Qed.

Lemma encode_loop_absent (text : str) (codes : gmap ascii str) (result : str) (ch : ascii) :
  ch ∈ text -> codes !! ch = None ->
  encode_loop text codes result = Fail OutOfRange.
Proof.
  revert result. induction text as [|x text IH]; intros result Hin Hnone; simpl.
  - by apply elem_of_nil in Hin.
  - destruct (codes !! x) as [c|] eqn:Hc; [|done].
    apply elem_of_cons in Hin as [->|Hin]; [congruence|by apply IH].
Qed.

Lemma encode_loop_length (text : str) (codes : gmap ascii str) (result s : str) :
  encode_loop text codes result = Ok s ->
  Z.of_nat (length s)
  = Z.of_nat (length result)
    + sumZ (map (fun ch => Z.of_nat (length (code_of codes ch))) text).
Proof.
  revert result. induction text as [|ch text IH]; intros result; simpl.
  - intros [= <-]. unfold sumZ. simpl. lia.
  - unfold code_of at 1. destruct (codes !! ch) as [c|] eqn:Hc; [|done].
    intros ->%IH. rewrite length_app. unfold sumZ. simpl. lia.
Qed.

(** ** decode *)

Lemma decode_loop_app (root : NodePtr) (s1 s2 : str) (st : NodePtr * str) :
  decode_loop root (s1 ++ s2) st
  = (st' ← decode_loop root s1 st; decode_loop root s2 st').
Proof.
  revert st. induction s1 as [|b s1 IH]; intros st; simpl; [done|].
  destruct (decode_step root st b); simpl; [apply IH|done].
Qed.

Lemma child_as_bit (c : ascii) (t : NodePtr) : child (as_bit c) t = child c t.
Proof.
  unfold child, as_bit. destruct t; [done|].
  destruct (decide (c = "0"%char)); by simpl.
Qed.

Lemma decode_loop_as_bit (root : NodePtr) (stream : str) (st : NodePtr * str) :
  decode_loop root (map as_bit stream) st = decode_loop root stream st.
Proof.
  revert st. induction stream as [|c stream IH]; intros st; simpl; [done|].
  unfold decode_step. rewrite child_as_bit.
  destruct (child c st.1 ≫= _); simpl; [apply IH|done].
Qed.

Lemma strict_children (c : ascii) (f : Z) (l r : NodePtr) :
  strict (Node c f l r) = true -> is_leaf (Node c f l r) = false ->
  strict l = true /\ strict r = true.
Proof.
  simpl. intros H1 H2. rewrite H2 in H1. simpl in H1. by apply andb_true_iff in H1.
Qed.

Lemma leaf_list_internal (c : ascii) (f : Z) (l r : NodePtr) :
  is_leaf (Node c f l r) = false ->
  leaf_list (Node c f l r)
  = map (extend "0") (leaf_list l) ++ map (extend "1") (leaf_list r).
Proof. simpl. by intros ->. Qed.

Lemma arrive_strict (root t : NodePtr) (result : str) :
  strict t = true ->
  (is_leaf t = true /\ exists c f, t = Node c f nullptr nullptr /\
     arrive root t result = Ok (root, result ++ [c])) \/
  (is_leaf t = false /\ arrive root t result = Ok (t, result)).
Proof.
  destruct t as [|c f l r]; [done|]. intros _.
  destruct (is_leaf (Node c f l r)) eqn:E; [left|right]; split; try done.
  - exists c, f. simpl in *. rewrite E. by destruct l, r.
  - simpl in *. by rewrite E.
Qed.

(** From an internal node, the path of a leaf below it leads to that leaf:
    its symbol is emitted and the walk is back at the root. *)
Lemma decode_walk (root t : NodePtr) (e : ascii * Z * str) (rest result : str) :
  strict t = true -> is_leaf t = false -> e ∈ leaf_list t ->
  decode_loop root (e.2 ++ rest) (t, result)
  = decode_loop root rest (root, result ++ [e.1.1]).
Proof.
  revert e result. induction t as [|c f l IHl r IHr]; intros e result Hs Hi He; [done|].
  destruct (strict_children _ _ _ _ Hs Hi) as [Hl Hr].
  rewrite leaf_list_internal in He by done.
  apply elem_of_app in He as [He|He];
    apply list_elem_of_fmap in He as (e' & -> & He'); simpl;
    unfold decode_step; simpl.
  - destruct (arrive_strict root l result Hl) as [(Hleaf & c' & f' & -> & ->)|[Hint ->]]; simpl.
    + apply list_elem_of_singleton in He' as ->. done.
    + by apply IHl.
  - destruct (arrive_strict root r result Hr) as [(Hleaf & c' & f' & -> & ->)|[Hint ->]]; simpl.
    + apply list_elem_of_singleton in He' as ->. done.
    + by apply IHr.
Qed.

(** Decoding a concatenation of codes gives the symbols back. *)
Lemma decode_concat (root : NodePtr) (code : ascii -> str) (text rest result : str) :
  strict root = true -> is_leaf root = false ->
  (forall ch, ch ∈ text -> exists f, (ch, f, code ch) ∈ leaf_list root) ->
  decode_loop root (concat (map code text) ++ rest) (root, result)
  = decode_loop root rest (root, result ++ text).
Proof.
  intros Hs Hi. revert result. induction text as [|ch text IH]; intros result H; simpl.
  - by rewrite app_nil_r.
  - destruct (H ch) as [f Hf]; [by left|].
    rewrite <- app_assoc. rewrite (decode_walk root root (ch, f, code ch)) by done.
    simpl. rewrite IH by (intros ch' Hch'; apply H; by right).
    by rewrite <- app_assoc.
Qed.

(** On a strict tree with an internal root no step dereferences [nullptr]. *)
Lemma decode_loop_total (root : NodePtr) (stream : str) (t : NodePtr) (result : str) :
  strict root = true -> is_leaf root = false ->
  strict t = true -> is_leaf t = false ->
  exists t' result',
    decode_loop root stream (t, result) = Ok (t', result') /\
    strict t' = true /\ is_leaf t' = false.
Proof.
  intros Hs Hi. revert t result.
  induction stream as [|b stream IH]; intros t result Ht Hti; simpl; [by eauto|].
  destruct t as [|c f l r]; [done|].
  destruct (strict_children _ _ _ _ Ht Hti) as [Hl Hr].
  unfold decode_step. simpl.
  destruct (decide (b = "0"%char)); simpl.
  - destruct (arrive_strict root l result Hl) as [(_ & c' & f' & _ & ->)|[Hint ->]];
      simpl; by apply IH.
  - destruct (arrive_strict root r result Hr) as [(_ & c' & f' & _ & ->)|[Hint ->]];
      simpl; by apply IH.
Qed.

(** The stream splits into codes read completely and a dangling rest. *)
Lemma decode_loop_split (root : NodePtr) (stream : str) (cur : NodePtr) (out : str) :
  decode_loop root stream (root, []) = Ok (cur, out) ->
  exists s p, stream = s ++ p /\
    decode_loop root s (root, []) = Ok (root, out) /\
    (cur <> root -> p <> []).
Proof.
  revert cur out. induction stream as [|b stream IH] using rev_ind; intros cur out.
  - simpl. intros [= <- <-]. by exists [], [].
  - rewrite decode_loop_app. intros ([cur' out'] & H1 & H2)%bind_Ok.
    simpl in H2. apply bind_Ok in H2 as ([cur2 out2] & H2 & [= <- <-]).
    unfold decode_step in H2. apply bind_Ok in H2 as (c1 & Hc & Ha).
    simpl in Ha, Hc.
    destruct c1 as [|ch f l r]; [done|]. simpl in Ha.
    destruct (is_nullptr l && is_nullptr r) eqn:E.
    + injection Ha as <- <-. exists (stream ++ [b]), []. rewrite app_nil_r.
      split; [done|]. split; [|done].
      rewrite decode_loop_app, H1. simpl. unfold decode_step. simpl. rewrite Hc.
      simpl. by rewrite E.
    + injection Ha as <- <-.
      destruct (IH _ _ H1) as (s & p & -> & Hs & _).
      exists s, (p ++ [b]). rewrite app_assoc. split; [done|]. split; [done|].
      intros _. by destruct p.
Qed.

(** ** Huffman's algorithm is optimal on weights

    A candidate tree is seen through its multiset of (weight, depth) pairs
    only.  Two deepest sibling leaves exist in every tree with two leaves or
    more; giving them the two least weights does not raise the cost; merging
    them yields a candidate for the weights after one Huffman round. *)

Lemma pcost_cons (w : Z) (d : nat) (pd : list (Z * nat)) :
  pcost ((w, d) :: pd) = w * Z.of_nat d + pcost pd.
Proof. done. Qed.

Lemma pcost_app (pd1 pd2 : list (Z * nat)) : pcost (pd1 ++ pd2) = pcost pd1 + pcost pd2.
Proof. unfold pcost. by rewrite map_app, sumZ_app. Qed.

Lemma pcost_perm (pd1 pd2 : list (Z * nat)) : pd1 ≡ₚ pd2 -> pcost pd1 = pcost pd2.
Proof. intros H. unfold pcost. by rewrite H. Qed.

Lemma treeable_length (l : list nat) : treeable l -> (1 <= length l)%nat.
Proof.
  induction 1 as [|l1 l2 l _ IH1 _ IH2 Hp]; simpl; [lia|].
  rewrite Hp, length_map, length_app. lia.
Qed.

Lemma treeable_single (d : nat) : treeable [d] -> d = 0%nat.
Proof.
  inversion 1 as [|l1 l2 l H1 H2 Hp]; [done|].
  apply treeable_length in H1, H2. apply Permutation_length in Hp.
  rewrite length_map, length_app in Hp. simpl in Hp. lia.
Qed.

(** Every tree with at least two leaves has two leaves of greatest depth
    that may be merged into their parent. *)
Lemma treeable_merge (l : list nat) :
  treeable l ->
  l = [0%nat] \/
  exists D l', l ≡ₚ S D :: S D :: l' /\ treeable (D :: l') /\
    Forall (fun d => (d <= S D)%nat) l.
Proof.
  induction 1 as [|l1 l2 l H1 IH1 H2 IH2 Hp]; [by left|right].
  assert (Hlift : forall D (ds : list nat),
            Forall (fun d => (d <= D)%nat) ds ->
            Forall (fun d => (d <= S D)%nat) (map S ds)).
  { intros D ds Hds. apply Forall_map. eapply Forall_impl; [exact Hds|].
    simpl. lia. }
  destruct IH1 as [->|(D1 & l1' & Hp1 & Ht1 & Hmax1)],
           IH2 as [->|(D2 & l2' & Hp2 & Ht2 & Hmax2)].
  - exists 0%nat, []. split; [done|]. split; [constructor|].
    rewrite Hp. simpl. constructor; [lia|]. constructor; [lia|constructor].
  - exists (S D2), (1%nat :: map S l2'). split; [|split].
    + rewrite Hp, Hp2. simpl. rewrite Permutation_swap. apply perm_skip.
      by rewrite Permutation_swap.
    + eapply treeable_node; [constructor|exact Ht2|]. simpl.
      by rewrite Permutation_swap.
    + rewrite Hp. simpl. constructor; [lia|]. by apply Hlift.
  - exists (S D1), (map S l1' ++ [1%nat]). split; [|split].
    + rewrite Hp, Hp1. simpl. by rewrite map_app.
    + eapply treeable_node; [exact Ht1|constructor|]. simpl. by rewrite map_app.
    + rewrite Hp, map_app. apply Forall_app. split; [by apply Hlift|].
      simpl. constructor; [lia|constructor].
  - destruct (decide (D2 <= D1)%nat) as [Hle|Hgt].
    + exists (S D1), (map S l1' ++ map S l2). split; [|split].
      * rewrite Hp, Hp1. simpl. by rewrite map_app.
      * eapply treeable_node; [exact Ht1|exact H2|]. simpl. by rewrite map_app.
      * rewrite Hp, map_app. apply Forall_app. split; [by apply Hlift|].
        apply Hlift. eapply Forall_impl; [exact Hmax2|]. simpl. lia.
    + exists (S D2), (map S l1 ++ map S l2'). split; [|split].
      * rewrite Hp, Hp2, map_app. simpl.
        by rewrite <- !Permutation_middle.
      * eapply treeable_node; [exact H1|exact Ht2|].
        rewrite map_app. simpl. by rewrite <- Permutation_middle.
      * rewrite Hp, map_app. apply Forall_app. split; [|by apply Hlift].
        apply Hlift. eapply Forall_impl; [exact Hmax1|]. simpl. lia.
Qed.

Lemma Forall_depths (P : nat -> Prop) (l1 l2 : list (Z * nat)) :
  map snd l1 = map snd l2 ->
  Forall (fun p => P p.2) l2 -> Forall (fun p => P p.2) l1.
Proof.
  revert l2. induction l1 as [|p1 l1 IH]; intros [|p2 l2]; simpl; try done.
  intros [= E1 E2] [H1 H2]%Forall_cons. constructor; [by rewrite E1|by eapply IH].
Qed.

(** A least weight can take the place of the weight at a deepest leaf. *)
Lemma swap_to_front (x a : Z) (D : nat) (rest : list (Z * nat)) :
  a ∈ x :: map fst rest ->
  (forall w, w ∈ x :: map fst rest -> a <= w) ->
  Forall (fun p => (p.2 <= D)%nat) rest ->
  exists rest',
    map snd rest' = map snd rest /\
    a :: map fst rest' ≡ₚ x :: map fst rest /\
    pcost ((a, D) :: rest') <= pcost ((x, D) :: rest).
Proof.
  intros Ha Hmin Hd. apply elem_of_cons in Ha as [->|Ha].
  - exists rest. split; [done|]. split; [done|lia].
  - apply list_elem_of_fmap in Ha as ([a' d] & -> & Hin). simpl in *.
    apply list_elem_of_split in Hin as (r1 & r2 & ->).
    exists (r1 ++ (x, d) :: r2). split; [|split].
    + by rewrite !map_app.
    + rewrite !map_app. simpl. rewrite <- !Permutation_middle. apply Permutation_swap.
    + rewrite !pcost_cons, !pcost_app, !pcost_cons.
      assert (a' <= x) by (apply Hmin; by left).
      apply Forall_app in Hd as [_ Hd]. apply Forall_cons in Hd as [Hd _].
      simpl in Hd. nia.
Qed.

(** One Huffman round, mirrored on an arbitrary candidate tree. *)
Lemma exchange (pd : list (Z * nat)) (a b : Z) (ws : list Z) :
  treeable (map snd pd) ->
  map fst pd ≡ₚ a :: b :: ws ->
  (forall x, x ∈ b :: ws -> a <= x) ->
  (forall x, x ∈ ws -> b <= x) ->
  exists pd',
    map fst pd' ≡ₚ (a + b) :: ws /\ treeable (map snd pd') /\
    pcost pd' + a + b <= pcost pd.
Proof.
  intros Ht Hw Ha Hb.
  destruct (treeable_merge _ Ht) as [E|(D & l' & Hp & Ht' & Hmax)].
  { apply Permutation_length in Hw. rewrite length_map in Hw.
    rewrite <- (length_map snd), E in Hw. simpl in Hw. lia. }
  symmetry in Hp. apply Permutation_map_inv in Hp as (pd0 & E0 & Hpd).
  destruct pd0 as [|[x d1] [|[y d2] rest0]]; try done.
  simpl in E0. injection E0 as <- <- ->.
  assert (Hd0 : Forall (fun p => (p.2 <= S D)%nat) ((y, S D) :: rest0)).
  { rewrite Hpd in Hmax. simpl in Hmax. apply Forall_cons in Hmax as [_ Hmax].
    apply Forall_cons in Hmax as [_ Hmax]. constructor; [simpl; lia|].
    by apply Forall_map in Hmax. }
  rewrite Hpd in Hw. simpl in Hw.
  destruct (swap_to_front x a (S D) ((y, S D) :: rest0)) as (rest1 & Es1 & Hw1 & Hc1).
  { simpl. rewrite Hw. by left. }
  { intros w Hw'. simpl in Hw'. rewrite Hw in Hw'.
    apply elem_of_cons in Hw' as [->|Hw']; [lia|by apply Ha]. }
  { done. }
  destruct rest1 as [|[y1 d] rest1]; [done|]. simpl in Es1. injection Es1 as -> Es1.
  simpl in Hw1. rewrite Hw in Hw1. apply Permutation_cons_inv in Hw1.
  destruct (swap_to_front y1 b (S D) rest1) as (rest2 & Es2 & Hw2 & Hc2).
  { rewrite Hw1. by left. }
  { intros w Hw'. rewrite Hw1 in Hw'.
    apply elem_of_cons in Hw' as [->|Hw']; [lia|by apply Hb]. }
  { apply Forall_cons in Hd0 as [_ Hd0].
    by apply (Forall_depths (fun d => (d <= S D)%nat) rest1 rest0). }
  rewrite Hw1 in Hw2. apply Permutation_cons_inv in Hw2.
  exists ((a + b, D) :: rest2). split; [|split].
  - simpl. by rewrite Hw2.
  - simpl. by rewrite Es2, Es1.
  - rewrite (pcost_perm pd _ Hpd). rewrite !pcost_cons in *. lia.
Qed.

(** No candidate tree for the same weights is cheaper than Huffman's. *)
Theorem hcost_optimal (ws : list Z) (c : Z) :
  hcost ws c ->
  forall pd, map fst pd ≡ₚ ws -> treeable (map snd pd) -> c <= pcost pd.
Proof.
  induction 1 as [w|ws a b rest c Hp Ha Hb Hc IH]; intros pd Hw Ht.
  - apply Permutation_singleton_r in Hw.
    destruct pd as [|[w' d] [|??]]; try done. simpl in Hw. injection Hw as ->.
    simpl in Ht. apply treeable_single in Ht as ->.
    rewrite pcost_cons. unfold pcost, sumZ. simpl. lia.
  - destruct (exchange pd a b rest Ht) as (pd' & Hw' & Ht' & Hcost); [by rewrite Hw|done..|].
    specialize (IH pd' Hw' Ht'). lia.
Qed.

(** ** Every binary prefix code is dominated by a tree *)

Lemma prefix_free_nonempty (cs : list str) :
  prefix_free cs -> (2 <= length cs)%nat -> Forall (fun c => c <> []) cs.
Proof.
  intros Hpf Hlen. apply Forall_forall. intros c Hc ->.
  destruct cs as [|c1 [|c2 cs]]; simpl in Hlen; try lia.
  destruct Hpf as [H1 [H2 _]]. apply Forall_cons in H1 as [[N1 N2] H1].
  apply elem_of_cons in Hc as [<-|Hc].
  - apply N1, prefix_nil.
  - apply elem_of_cons in Hc as [<-|Hc].
    + apply N2, prefix_nil.
    + rewrite Forall_forall in H1. destruct (H1 [] Hc) as [_ N]. apply N, prefix_nil.
Qed.

Lemma prefix_free_words_nonempty (wc : list (Z * str)) :
  prefix_free (map snd wc) -> (2 <= length wc)%nat ->
  Forall (fun p => p.2 <> []) wc.
Proof.
  intros Hpf Hlen. rewrite <- (length_map snd) in Hlen.
  pose proof (prefix_free_nonempty _ Hpf Hlen) as H.
  rewrite Forall_forall in H. apply Forall_forall. intros p Hp.
  apply H. by apply (list_elem_of_fmap_2 snd).
Qed.

Lemma split_codes_weights (wc : list (Z * str)) :
  Forall (fun p => p.2 <> []) wc ->
  map fst wc ≡ₚ map fst (split_codes wc).1 ++ map fst (split_codes wc).2.
Proof.
  induction wc as [|[w c] wc IH]; simpl; [done|]. intros [Hc Hne]%Forall_cons.
  specialize (IH Hne). destruct c as [|b c']; [done|]. case_decide; simpl.
  - by rewrite IH.
  - by rewrite IH, Permutation_middle.
Qed.

Lemma split_codes_length (wc : list (Z * str)) :
  Forall (fun p => p.2 <> []) wc ->
  (length (split_codes wc).1 + length (split_codes wc).2 = length wc)%nat.
Proof.
  intros H. rewrite <- (length_map fst wc), (split_codes_weights wc H).
  rewrite length_app, !length_map. lia.
Qed.

Lemma split_codes_cost (wc : list (Z * str)) :
  Forall (fun p => p.2 <> []) wc ->
  code_cost wc
  = code_cost (split_codes wc).1 + code_cost (split_codes wc).2 + sumZ (map fst wc).
Proof.
  unfold code_cost, sumZ.
  induction wc as [|[w c] wc IH]; simpl; [done|]. intros [Hc Hne]%Forall_cons.
  specialize (IH Hne). destruct c as [|b c']; [done|].
  case_decide; simpl in *; lia.
Qed.

Lemma split_codes_size (wc : list (Z * str)) :
  Forall (fun p => p.2 <> []) wc ->
  (sum_list_with (fun p => length p.2) (split_codes wc).1
   + sum_list_with (fun p => length p.2) (split_codes wc).2
   + length wc
   = sum_list_with (fun p => length p.2) wc)%nat.
Proof.
  induction wc as [|[w c] wc IH]; simpl; [done|]. intros [Hc Hne]%Forall_cons.
  specialize (IH Hne). destruct c as [|b c']; [done|].
  case_decide; simpl in *; lia.
Qed.

Lemma split_codes_zero (wc : list (Z * str)) (w : Z) (t : str) :
  (w, t) ∈ (split_codes wc).1 -> (w, "0"%char :: t) ∈ wc.
Proof.
  induction wc as [|[w' c] wc IH]; simpl; [by intros ?%elem_of_nil|].
  destruct c as [|b c']; [by right; apply IH|]. case_decide as Hd; simpl; intros H.
  - apply elem_of_cons in H as [[= -> ->]|H]; [subst b; by left|right; by apply IH].
  - right. by apply IH.
Qed.

Lemma split_codes_one (wc : list (Z * str)) (w : Z) (t : str) :
  Forall (fun p => binary p.2) wc ->
  (w, t) ∈ (split_codes wc).2 -> (w, "1"%char :: t) ∈ wc.
Proof.
  induction wc as [|[w' c] wc IH]; simpl; [by intros _ ?%elem_of_nil|].
  intros [Hb Hbin]%Forall_cons. specialize (IH Hbin).
  destruct c as [|b c']; [by right; apply IH|]. case_decide as Hd; simpl; intros H.
  - right. by apply IH.
  - apply elem_of_cons in H as [[= -> ->]|H]; [|right; by apply IH].
    simpl in Hb. apply Forall_cons in Hb as [[->| ->] _]; [done|by left].
Qed.

Lemma split_codes_binary (wc : list (Z * str)) :
  Forall (fun p => binary p.2) wc ->
  Forall (fun p => binary p.2) (split_codes wc).1 /\
  Forall (fun p => binary p.2) (split_codes wc).2.
Proof.
  induction wc as [|[w c] wc IH]; simpl; [done|].
  intros [Hb Hbin]%Forall_cons. destruct (IH Hbin) as [IH1 IH2].
  destruct c as [|b c']; [done|]. simpl in Hb. apply Forall_cons in Hb as [_ Hb].
  case_decide; simpl; split; try done; by constructor.
Qed.

Lemma split_codes_nonneg (wc : list (Z * str)) :
  Forall (fun p => 0 <= p.1) wc ->
  Forall (fun p => 0 <= p.1) (split_codes wc).1 /\
  Forall (fun p => 0 <= p.1) (split_codes wc).2.
Proof.
  induction wc as [|[w c] wc IH]; simpl; [done|]. intros [Hw Hpos]%Forall_cons.
  destruct (IH Hpos) as [IH1 IH2]. destruct c as [|b c']; [done|].
  case_decide; simpl; split; try done; by constructor.
Qed.

Lemma split_codes_prefix_free (wc : list (Z * str)) :
  Forall (fun p => binary p.2) wc ->
  prefix_free (map snd wc) ->
  prefix_free (map snd (split_codes wc).1) /\
  prefix_free (map snd (split_codes wc).2).
Proof.
  induction wc as [|[w c] wc IH]; simpl; [done|].
  intros [Hb Hbin]%Forall_cons [Hx Hpf]. destruct (IH Hbin Hpf) as [IH1 IH2].
  rewrite Forall_map, Forall_forall in Hx.
  destruct c as [|b c']; [done|]. simpl in Hb. apply Forall_cons in Hb as [Hb _].
  case_decide as Hd; simpl.
  - split; [|done]. split; [|done]. subst b.
    apply Forall_map, Forall_forall. intros [w' t] Ht%split_codes_zero. simpl.
    destruct (Hx _ Ht) as [N1 N2]. simpl in *.
    split; intros Hp; [apply N1|apply N2]; by apply prefix_cons.
  - split; [done|]. split; [|done]. destruct Hb as [->| ->]; [done|].
    apply Forall_map, Forall_forall. intros [w' t] Ht%split_codes_one; [|done]. simpl.
    destruct (Hx _ Ht) as [N1 N2]. simpl in *.
    split; intros Hp; [apply N1|apply N2]; by apply prefix_cons.
Qed.

Lemma code_cost_nonneg (wc : list (Z * str)) :
  Forall (fun p => 0 <= p.1) wc -> 0 <= code_cost wc.
Proof.
  intros H. apply sumZ_nonneg, Forall_map. eapply Forall_impl; [exact H|].
  intros [w c] Hw. simpl in *. lia.
Qed.

Lemma pcost_lift (pd : list (Z * nat)) :
  pcost (map (fun p => (p.1, S p.2)) pd) = pcost pd + sumZ (map fst pd).
Proof.
  unfold pcost, sumZ. induction pd as [|[w d] pd IH]; simpl in *; [done|]. lia.
Qed.

(** A prefix code is never cheaper than some strict binary tree carrying the
    same weights: shorten its words until the code tree is full. *)
Lemma prefix_code_profile (n : nat) (wc : list (Z * str)) :
  (sum_list_with (fun p => length p.2) wc <= n)%nat ->
  wc <> [] ->
  Forall (fun p => 0 <= p.1) wc ->
  Forall (fun p => binary p.2) wc ->
  prefix_free (map snd wc) ->
  exists pd,
    map fst pd ≡ₚ map fst wc /\ treeable (map snd pd) /\ pcost pd <= code_cost wc.
Proof.
  revert wc. induction n as [|n IH]; intros wc Hn Hwc Hpos Hbin Hpf;
    (destruct wc as [|[w c] [|p2 wc2]]; [done| |]);
    try (exists [(w, 0%nat)]; split; [done|]; split; [constructor|];
         apply Forall_cons in Hpos as [Hw _];
         unfold pcost, code_cost, sumZ; simpl in *; lia).
  - pose proof (prefix_free_words_nonempty _ Hpf ltac:(simpl; lia)) as Hne.
    pose proof (split_codes_size _ Hne) as Hs.
    simpl length in Hs. lia.
  - set (wc := (w, c) :: p2 :: wc2) in *.
    pose proof (prefix_free_words_nonempty _ Hpf ltac:(simpl; lia)) as Hne.
    pose proof (split_codes_size _ Hne) as Hs.
    pose proof (split_codes_length _ Hne) as Hl.
    pose proof (split_codes_cost _ Hne) as Hc.
    pose proof (split_codes_weights _ Hne) as Hw.
    destruct (split_codes_nonneg _ Hpos) as [Hpos1 Hpos2].
    destruct (split_codes_binary _ Hbin) as [Hbin1 Hbin2].
    destruct (split_codes_prefix_free _ Hbin Hpf) as [Hpf1 Hpf2].
    assert (Hlen : (2 <= length wc)%nat) by (simpl; lia).
    assert (Hsum : 0 <= sumZ (map fst wc)).
    { apply sumZ_nonneg, Forall_map. exact Hpos. }
    destruct (split_codes wc) as [z o]. simpl in *.
    destruct z as [|z1 z], o as [|o1 o].
    + simpl in Hl. lia.
    + destruct (IH (o1 :: o)) as (pd & Hpw & Hpt & Hpc); [simpl in *; lia|done..|].
      exists pd. split; [by rewrite Hpw, Hw|]. split; [done|].
      change (code_cost []) with 0 in Hc. lia.
    + destruct (IH (z1 :: z)) as (pd & Hpw & Hpt & Hpc); [simpl in *; lia|done..|].
      exists pd. split; [by rewrite Hpw, Hw, app_nil_r|]. split; [done|].
      change (code_cost []) with 0 in Hc. lia.
    + destruct (IH (z1 :: z)) as (pd1 & Hpw1 & Hpt1 & Hpc1); [simpl in *; lia|done..|].
      destruct (IH (o1 :: o)) as (pd2 & Hpw2 & Hpt2 & Hpc2); [simpl in *; lia|done..|].
      exists (map (fun p => (p.1, S p.2)) (pd1 ++ pd2)). split; [|split].
      * rewrite map_map. simpl. change (map (fun x => x.1)) with (@map (Z * nat) _ fst).
        by rewrite map_app, Hpw1, Hpw2, Hw.
      * eapply treeable_node; [exact Hpt1|exact Hpt2|].
        rewrite map_map. simpl. by rewrite <- map_app, map_map.
      * rewrite pcost_lift, pcost_app, map_app, Hpw1, Hpw2, <- Hw.
        change (sumZ (w :: p2.1 :: map fst wc2)) with (w + (p2.1 + sumZ (map fst wc2))).
        lia.
Qed.

(** ** The table built by main *)

Lemma cost_profile (t : NodePtr) : cost t = pcost (profile t).
Proof. unfold cost, pcost, profile. by rewrite map_map. Qed.

Lemma profile_weights (t : NodePtr) : map fst (profile t) = map snd (leaves t).
Proof. unfold profile, leaves. by rewrite !map_map. Qed.

Lemma htree_treeable (t : NodePtr) : htree t -> treeable (map snd (profile t)).
Proof.
  unfold profile. induction 1 as [c f Hf|c f l r Hl IHl Hr IHr Hfreq].
  - simpl. constructor.
  - rewrite leaf_list_node by done. eapply treeable_node; [exact IHl|exact IHr|].
    by rewrite !map_app, !map_map.
Qed.

Lemma htree_is_leaf (t : NodePtr) :
  htree t -> is_leaf t = true -> exists c f, t = Node c f nullptr nullptr.
Proof.
  destruct 1 as [c f Hf|c f l r Hl Hr Hfreq]; [by eauto|].
  simpl. by rewrite (htree_nonnull l Hl).
Qed.

Lemma htree_leaf_count (t : NodePtr) :
  htree t -> (2 <= length (leaf_list t))%nat -> is_leaf t = false.
Proof.
  intros Ht Hlen. destruct (is_leaf t) eqn:E; [|done].
  destruct (htree_is_leaf t Ht E) as (c & f & ->). simpl in Hlen. lia.
Qed.

Section Table.
Variables (L : StdLib) (text : str) (freq : gmap ascii Z) (root : NodePtr).
Hypothesis Hfreq : count_freq text = Ok freq.
Hypothesis Hroot : build_tree L freq = Ok root.

Let codes := buildCodes root [] ∅.

Lemma built_leaves_nodup : NoDup (map fst (leaves root)).
Proof.
  destruct (build_tree_inv L text freq root Hfreq Hroot) as (_ & _ & Hlv & _).
  rewrite Hlv. apply NoDup_fst_map_to_list.
Qed.

Lemma built_codes_lookup (c : ascii) (p : str) :
  codes !! c = Some p <-> exists f, (c, f, p) ∈ leaf_list root.
Proof. apply buildCodes_lookup, built_leaves_nodup. Qed.

Lemma built_leaf_freq (c : ascii) (f : Z) (p : str) :
  (c, f, p) ∈ leaf_list root -> freq !! c = Some f.
Proof.
  destruct (build_tree_inv L text freq root Hfreq Hroot) as (_ & _ & Hlv & _).
  intros H. apply elem_of_map_to_list. rewrite <- Hlv.
  by apply (list_elem_of_fmap_2 fst) in H.
Qed.

Lemma built_codes_dom (c : ascii) : is_Some (codes !! c) <-> c ∈ text.
Proof.
  destruct (build_tree_inv L text freq root Hfreq Hroot) as (Hc & _ & Hlv & _).
  rewrite <- (counts_dom text freq c Hc), elem_of_dom. split.
  - intros [p (f & Hf)%built_codes_lookup]. exists f. by eapply built_leaf_freq.
  - intros [f Hf]. apply elem_of_map_to_list in Hf. rewrite <- Hlv in Hf.
    apply list_elem_of_fmap in Hf as ([[c' f'] p] & [= -> ->] & He).
    exists p. apply built_codes_lookup. by exists f'.
Qed.

Lemma built_code_of (c : ascii) (f : Z) (p : str) :
  (c, f, p) ∈ leaf_list root -> code_of codes c = p.
Proof.
  intros H. unfold code_of.
  assert (Hl : codes !! c = Some p) by (apply built_codes_lookup; by exists f).
  by rewrite Hl.
Qed.

(** The weighted length of the table is the cost of the tree. *)
Lemma built_weighted_length : weighted_length freq (code_of codes) = cost root.
Proof.
  destruct (build_tree_inv L text freq root Hfreq Hroot) as (_ & _ & Hlv & _).
  unfold weighted_length, cost. rewrite <- Hlv. unfold leaves. rewrite map_map.
  f_equal. apply map_ext_in. intros [[c f] p] Hin%list_elem_of_In. simpl.
  by rewrite (built_code_of c f p Hin).
Qed.

Lemma built_encode :
  encode text codes = Ok (concat (map (code_of codes) text)).
Proof.
  unfold encode. rewrite encode_loop_ok; [done|].
  intros ch Hch. by apply built_codes_dom.
Qed.

(** The encoded stream has as many bits as the weighted length says. *)
Lemma built_encoded_length :
  Z.of_nat (length (concat (map (code_of codes) text))) = cost root.
Proof.
  destruct (build_tree_inv L text freq root Hfreq Hroot) as (Hc & _).
  rewrite (encode_loop_length text codes [] _ built_encode). simpl.
  rewrite (counts_sum _ freq text Hc). apply built_weighted_length.
Qed.

Lemma built_size : leaf_count root = size freq.
Proof.
  destruct (build_tree_inv L text freq root Hfreq Hroot) as (_ & _ & Hlv & _).
  unfold leaf_count. rewrite <- (length_map fst). fold (leaves root).
  by rewrite Hlv, length_map_to_list.
Qed.

(** With two symbols or more the text is decoded back. *)
Lemma built_roundtrip :
  (2 <= size freq)%nat ->
  decode (concat (map (code_of codes) text)) root = Ok text.
Proof.
  intros Hsize.
  destruct (build_tree_inv L text freq root Hfreq Hroot) as (Hc & Ht & Hlv & _).
  assert (Hi : is_leaf root = false).
  { apply htree_leaf_count; [done|]. fold (leaf_count root). rewrite built_size. lia. }
  unfold decode.
  rewrite <- (app_nil_r (concat _)).
  rewrite decode_concat; [done|by apply htree_strict|done|].
  intros ch Hch. apply built_codes_dom in Hch as [p Hp].
  unfold code_of. rewrite Hp. simpl. by apply built_codes_lookup.
Qed.
End Table.

(** ** Runs of main *)

Lemma main_Ok (L : StdLib) (text : str) (out : output) :
  main L text = Ok out <->
  exists freq root encoded decoded,
    count_freq text = Ok freq /\ build_tree L freq = Ok root /\
    encode text (buildCodes root [] ∅) = Ok encoded /\
    decode encoded root = Ok decoded /\
    out = {| out_codes := buildCodes root [] ∅;
             out_encoded := encoded; out_decoded := decoded |}.
Proof.
  unfold main. split.
  - intros (freq & Hf & (root & Hr & (enc & He & (dec & Hd & [= <-])%bind_Ok)%bind_Ok)%bind_Ok)%bind_Ok.
    by exists freq, root, enc, dec.
  - intros (freq & root & enc & dec & -> & Hr & He & Hd & ->). simpl.
    rewrite Hr. simpl. rewrite He. simpl. by rewrite Hd.
Qed.

Lemma concat_nil_all {A} (ls : list (list A)) :
  Forall (fun l => l = []) ls -> concat ls = [].
Proof. induction 1 as [|l ls -> _ IH]; simpl; done. Qed.

(** A tree with a single leaf is that leaf. *)
Lemma htree_single (t : NodePtr) :
  htree t -> length (leaf_list t) = 1%nat -> exists c f, t = Node c f nullptr nullptr.
Proof.
  destruct 1 as [c f Hf|c f l r Hl Hr Hfreq]; [by eauto|].
  rewrite leaf_list_node by done. rewrite length_app, !length_map.
  pose proof (treeable_length _ (htree_treeable l Hl)) as H1.
  pose proof (treeable_length _ (htree_treeable r Hr)) as H2.
  unfold profile in H1, H2. rewrite !length_map in H1, H2. lia.
Qed.

(** With a single symbol every code is empty, and so is the encoded stream. *)
Lemma built_single (L : StdLib) (text : str) (freq : gmap ascii Z) (root : NodePtr) :
  count_freq text = Ok freq -> build_tree L freq = Ok root ->
  size freq = 1%nat ->
  concat (map (code_of (buildCodes root [] ∅)) text) = [].
Proof.
  intros Hf Hr Hsize.
  destruct (build_tree_inv L text freq root Hf Hr) as (Hc & Ht & Hlv & _).
  pose proof (built_size L text freq root Hf Hr) as Hn. unfold leaf_count in Hn.
  rewrite Hsize in Hn. destruct (htree_single root Ht Hn) as (c & f & ->).
  apply concat_nil_all, Forall_map, Forall_forall. intros ch Hch.
  apply (built_codes_dom L text freq _ Hf Hr) in Hch as [p Hp].
  pose proof Hp as Hp'.
  apply (built_codes_lookup L text freq _ Hf Hr) in Hp as [f' Hin].
  simpl in Hin. apply list_elem_of_singleton in Hin. injection Hin as -> -> ->.
  unfold code_of. by rewrite Hp'.
Qed.

(** main runs to completion on every non-empty text that fits an [int]. *)
Lemma main_total (L : StdLib) (text : str) :
  text <> [] -> Z.of_nat (length text) <= INT_MAX ->
  exists freq root,
    count_freq text = Ok freq /\ build_tree L freq = Ok root /\
    main L text
    = Ok {| out_codes := buildCodes root [] ∅;
            out_encoded := concat (map (code_of (buildCodes root [] ∅)) text);
            out_decoded := if decide (2 <= size freq)%nat then text else [] |}.
Proof.
  intros Hne Hlen.
  destruct (build_from_text L text Hne Hlen) as (freq & root & Hf & Hr).
  exists freq, root. split; [done|]. split; [done|].
  apply main_Ok. exists freq, root. eexists. eexists.
  split; [done|]. split; [done|]. split; [by eapply built_encode|]. split; [|done].
  case_decide as Hsize; [by eapply built_roundtrip|].
  rewrite (built_single L text freq root Hf Hr); [done|].
  pose proof (counts_nonempty text freq (count_freq_counts text freq Hf) Hne) as H0.
  apply map_size_non_empty_iff in H0. lia.
Qed.

(** ** Claims of the specification *)

Lemma example_tree_built :
  exists freq, count_freq (lit "abracadabra") = Ok freq /\
    build_tree ScanLib freq = Ok example_tree.
Proof. eexists. split; [reflexivity|]. vm_compute. reflexivity. Qed.

(** The run of main on "aaaa", for every implementation of the containers. *)
Lemma single_symbol_run (L : StdLib) :
  exists out,
    main L (lit "aaaa") = Ok out /\
    out_codes out = {[ "a"%char := [] ]}.
Proof.
  exists {| out_codes := buildCodes (newNode "a" 4) [] ∅;
            out_encoded := []; out_decoded := [] |}.
  split; [|done]. apply main_Ok.
  exists {[ "a"%char := 4 ]}, (newNode "a" 4), [], [].
  split; [by vm_compute|]. split; [apply build_tree_single|]. by vm_compute.
Qed.

(** C1 (code defect).  The round-trip law fails on a text with a single
    distinct symbol: for "aaaa" the lone leaf is the root, the traversal
    records the empty code, the encoded stream is empty and decode returns
    the empty text instead of "aaaa".  This holds for every implementation of
    the containers. *)
Theorem roundtrip_single_symbol (L : StdLib) :
  exists out,
    main L (lit "aaaa") = Ok out /\
    out_encoded out = [] /\ out_decoded out = [] /\
    out_decoded out <> lit "aaaa".
Proof.
  exists {| out_codes := buildCodes (newNode "a" 4) [] ∅;
            out_encoded := []; out_decoded := [] |}.
  split; [|done]. apply main_Ok.
  exists {[ "a"%char := 4 ]}, (newNode "a" 4), [], [].
  split; [by vm_compute|]. split; [apply build_tree_single|]. by vm_compute.
Qed.

(** X18.  With two distinct symbols or more the round trip holds: the decoded
    text is the input, for every implementation of the containers. *)
Theorem roundtrip_two_symbols (L : StdLib) (text : str) (freq : gmap ascii Z) (out : output) :
  count_freq text = Ok freq -> (2 <= size freq)%nat ->
  main L text = Ok out ->
  out_decoded out = text.
Proof.
  intros Hf Hsize (freq' & root & enc & dec & Hf' & Hr & He & Hd & ->)%main_Ok.
  rewrite Hf in Hf'. injection Hf' as <-. simpl.
  rewrite (built_encode L text freq root Hf Hr) in He. injection He as <-.
  rewrite (built_roundtrip L text freq root Hf Hr Hsize) in Hd. by injection Hd.
Qed.

(** X19.  With exactly one distinct symbol the encoded stream and the decoded
    text are empty, whatever the length of the text. *)
Theorem single_symbol_decodes_empty (L : StdLib) (text : str) (freq : gmap ascii Z)
    (out : output) :
  count_freq text = Ok freq -> size freq = 1%nat ->
  main L text = Ok out ->
  out_encoded out = [] /\ out_decoded out = [] /\ out_decoded out <> text.
Proof.
  intros Hf Hsize (freq' & root & enc & dec & Hf' & Hr & He & Hd & ->)%main_Ok.
  rewrite Hf in Hf'. injection Hf' as <-. simpl.
  rewrite (built_encode L text freq root Hf Hr) in He. injection He as <-.
  rewrite (built_single L text freq root Hf Hr Hsize) in Hd |- *.
  injection Hd as <-. split; [done|]. split; [done|].
  intros <-. by injection Hf as <-.
Qed.

(** C4 (code defect).  With a single distinct symbol the table holds the
    empty code: for "aaaa" the table built by main is exactly [{a := ""}], for
    every implementation of the containers. *)
Theorem single_symbol_code_empty (L : StdLib) :
  exists out,
    main L (lit "aaaa") = Ok out /\
    out_codes out = {[ "a"%char := [] ]} /\
    out_codes out !! "a"%char = Some [].
Proof.
  destruct (single_symbol_run L) as (out & Hmain & Hcodes).
  exists out. split; [done|]. split; [done|]. by rewrite Hcodes.
Qed.

(** X20.  With two distinct symbols or more every code of the table is a
    non-empty word over ['0'] and ['1']. *)
Theorem codes_nonempty_binary (L : StdLib) (text : str) (freq : gmap ascii Z)
    (out : output) (s : ascii) (c : str) :
  count_freq text = Ok freq -> (2 <= size freq)%nat ->
  main L text = Ok out ->
  out_codes out !! s = Some c ->
  c <> [] /\ binary c.
Proof.
  intros Hf Hsize (freq' & root & enc & dec & Hf' & Hr & He & Hd & ->)%main_Ok.
  rewrite Hf in Hf'. injection Hf' as <-. simpl. intros Hc.
  apply (built_codes_lookup L text freq root Hf Hr) in Hc as [f Hin].
  split.
  - intros ->.
    destruct (build_tree_inv L text freq root Hf Hr) as (_ & Ht & _).
    pose proof (built_size L text freq root Hf Hr) as Hn. unfold leaf_count in Hn.
    pose proof (prefix_free_nonempty _ (leaf_list_prefix_free root)) as Hne.
    rewrite length_map in Hne. specialize (Hne ltac:(lia)).
    rewrite Forall_forall in Hne. apply (Hne []); [|done].
    by apply (list_elem_of_fmap_2 snd) in Hin.
  - pose proof (leaf_list_binary root) as Hb. rewrite Forall_forall in Hb.
    by apply (Hb _ Hin).
Qed.

(** C5 (code defect).  On the empty text the frequency table is empty, the
    queue is empty, the loop is skipped and line 129 calls [top()] on the empty
    queue: undefined behaviour, not a null root.  Only the second half of the
    claim holds: buildCodes on a null root leaves the table empty. *)
Theorem empty_text_undefined (L : StdLib) :
  count_freq [] = Ok ∅ /\
  build_tree L ∅ = Fail UndefinedBehaviour /\
  main L [] = Fail UndefinedBehaviour /\
  buildCodes nullptr [] ∅ = ∅.
Proof.
  split; [done|]. split; [apply build_tree_empty|]. split; [|done].
  unfold main. simpl. by rewrite build_tree_empty.
Qed.

(** C10 (code defect).  For a one-symbol alphabet the root is a leaf; on any
    non-empty stream decode moves to a child of that leaf, which is
    [nullptr], and line 79 dereferences it. *)
Theorem decode_single_leaf_null (L : StdLib) (c : ascii) (f : Z) (bit : ascii) (stream : str) :
  build_tree L {[ c := f ]} = Ok (newNode c f) /\
  decode (bit :: stream) (newNode c f) = Fail UndefinedBehaviour.
Proof.
  split; [apply build_tree_single|].
  unfold decode. simpl. unfold decode_step. simpl. by case_decide.
Qed.

(** X23.  With two distinct symbols or more decode dereferences no null
    pointer, whatever the stream. *)
Theorem decode_total_two_symbols (L : StdLib) (text : str) (freq : gmap ascii Z)
    (root : NodePtr) (stream : str) :
  count_freq text = Ok freq -> (2 <= size freq)%nat ->
  build_tree L freq = Ok root ->
  exists out, decode stream root = Ok out.
Proof.
  intros Hf Hsize Hr.
  destruct (build_tree_inv L text freq root Hf Hr) as (_ & Ht & _).
  assert (Hi : is_leaf root = false).
  { apply htree_leaf_count; [done|]. fold (leaf_count root).
    rewrite (built_size L text freq root Hf Hr). lia. }
  pose proof (htree_strict root Ht) as Hs.
  destruct (decode_loop_total root stream root [] Hs Hi Hs Hi) as (t & out & H & _).
  exists out. unfold decode. by rewrite H.
Qed.

(** C2, as stated, fails: on the tree of "abracadabra" the stream "01" ends
    below the root, and decode returns "a" without any error. *)
Lemma decode_off_boundary_counterexample :
  exists cur,
    decode_loop example_tree (lit "01") (example_tree, []) = Ok (cur, lit "a") /\
    cur <> example_tree /\
    decode (lit "01") example_tree = Ok (lit "a").
Proof. eexists. split; [by vm_compute|]. split; [discriminate|by vm_compute]. Qed.

(** C2 (amended).  decode has no error path for a stream that stops inside a
    code.  Whenever the walk ends below the root, decode returns normally; its
    result is the decoding of a proper prefix of the stream that ends on a
    symbol boundary, and the non-empty rest is dropped silently. *)
Theorem decode_drops_partial_symbol (stream : str) (root cur : NodePtr) (out : str) :
  decode_loop root stream (root, []) = Ok (cur, out) ->
  cur <> root ->
  decode stream root = Ok out /\
  exists s p, stream = s ++ p /\ p <> [] /\
    decode_loop root s (root, []) = Ok (root, out) /\
    decode s root = Ok out.
Proof.
  intros Hwalk Hcur. split; [unfold decode; by rewrite Hwalk|].
  destruct (decode_loop_split root stream cur out Hwalk) as (s & p & -> & Hs & Hp).
  exists s, p. split; [done|]. split; [by apply Hp|]. split; [done|].
  unfold decode. by rewrite Hs.
Qed.

Lemma decode_drops_partial_symbol_witness :
  decode (lit "01") example_tree = Ok (lit "a") /\
  exists s p, lit "01" = s ++ p /\ p <> [] /\
    decode_loop example_tree s (example_tree, []) = Ok (example_tree, lit "a") /\
    decode s example_tree = Ok (lit "a").
Proof.
  apply (decode_drops_partial_symbol (lit "01") example_tree
           (Node zero 6
              (Node zero 2 (newNode "c" 1) (newNode "d" 1))
              (Node zero 4 (newNode "r" 2) (newNode "b" 2))) (lit "a")).
  - vm_compute. reflexivity.
  - discriminate.
Defined.

(** C3, as stated, fails: the stream "x00" holds a character other than ['0']
    and ['1'], yet decode accepts it, reads the ['x'] as a step to the right
    child and returns "c", exactly as for "100". *)
Lemma decode_foreign_char_counterexample :
  "x"%char ∈ lit "x00" /\ "x"%char <> "0"%char /\ "x"%char <> "1"%char /\
  decode (lit "x00") example_tree = Ok (lit "c") /\
  decode (lit "100") example_tree = Ok (lit "c").
Proof.
  split; [by vm_compute; left|]. split; [discriminate|]. split; [discriminate|].
  by vm_compute.
Qed.

(** C3 (amended).  decode tests a character for ['0'] only: every other
    character, and not just ['1'], is a step to the right child.  No stream is
    rejected for its characters. *)
Theorem decode_reads_other_as_one (stream : str) (root : NodePtr) :
  decode stream root = decode (map as_bit stream) root /\
  (forall c, c <> "0"%char -> as_bit c = "1"%char) /\
  as_bit "0" = "0"%char.
Proof.
  split; [|split; [|done]].
  - unfold decode. by rewrite decode_loop_as_bit.
  - intros c Hc. unfold as_bit. by rewrite decide_False.
Qed.

(** C6.  Prefix-free invariant: main builds a table for every non-empty text
    that fits an [int], and in every table it builds no code of a symbol is a
    prefix of the code of another symbol. *)
Theorem codes_prefix_free (L : StdLib) (text : str) :
  (text <> [] -> Z.of_nat (length text) <= INT_MAX ->
   exists out, main L text = Ok out) /\
  (forall out s1 s2 c1 c2,
     main L text = Ok out -> s1 <> s2 ->
     out_codes out !! s1 = Some c1 -> out_codes out !! s2 = Some c2 ->
     ~ c1 `prefix_of` c2).
Proof.
  split.
  - intros Hne Hlen. destruct (main_total L text Hne Hlen) as (? & ? & _ & _ & H).
    by eexists.
  - intros out s1 s2 c1 c2
      (freq & root & enc & dec & Hf & Hr & He & Hd & ->)%main_Ok Hs. simpl.
    intros [f1 H1]%(built_codes_lookup L text freq root Hf Hr).
    intros [f2 H2]%(built_codes_lookup L text freq root Hf Hr) Hp.
    pose proof (prefix_free_elem snd _ _ _ (leaf_list_prefix_free root) H1 H2 Hp).
    congruence.
Qed.

(** C8.  Tree structure invariant: for every frequency table with at least
    one symbol (positive counts that add up within [int]) the builder returns
    a strict binary tree whose internal nodes carry the sum of their
    children's frequencies and whose leaves are the entries of the table, one
    leaf per distinct symbol. *)
Theorem tree_structure (L : StdLib) (freq : gmap ascii Z) :
  freq <> ∅ ->
  map_Forall (fun _ v => 0 < v) freq ->
  sumZ (map snd (map_to_list freq)) <= INT_MAX ->
  exists root,
    build_tree L freq = Ok root /\
    strict root = true /\ sums_ok root = true /\
    leaf_count root = size freq /\
    leaves root ≡ₚ map_to_list freq.
Proof.
  intros Hne Hpos Hsum. destruct (build_tree_spec L freq Hpos) as [HA HB].
  destruct (HA Hne Hsum) as [root Hroot]. destruct (HB root Hroot) as (Ht & Hlv & _).
  exists root. split; [done|]. split; [by apply htree_strict|].
  split; [by apply htree_sums_ok|]. split; [|done].
  unfold leaf_count. rewrite <- (length_map fst). fold (leaves root).
  by rewrite Hlv, length_map_to_list.
Qed.

Lemma tree_structure_witness :
  exists root,
    build_tree ScanLib {[ "a"%char := 2; "b"%char := 1 ]} = Ok root /\
    strict root = true /\ sums_ok root = true /\
    leaf_count root = size ({[ "a"%char := 2; "b"%char := 1 ]} : gmap ascii Z) /\
    leaves root ≡ₚ map_to_list ({[ "a"%char := 2; "b"%char := 1 ]} : gmap ascii Z).
Proof.
  apply (tree_structure ScanLib {[ "a"%char := 2; "b"%char := 1 ]}).
  - discriminate.
  - apply (bool_decide_unpack _). vm_compute. reflexivity.
  - vm_compute. discriminate.
Defined.

(** C9.  encode concatenates the codes of the symbols in input order; it
    fails exactly when a symbol of the text has no entry, and then with the
    lookup error of [at()]; with the table main builds from the same text it
    does not fail. *)
Theorem encode_spec (text : str) (codes : gmap ascii str) :
  ((forall ch, ch ∈ text -> is_Some (codes !! ch)) ->
   encode text codes = Ok (concat (map (code_of codes) text))) /\
  (forall e, encode text codes = Fail e <->
     e = OutOfRange /\ exists ch, ch ∈ text /\ codes !! ch = None) /\
  (forall L freq root,
     count_freq text = Ok freq -> build_tree L freq = Ok root ->
     encode text (buildCodes root [] ∅)
     = Ok (concat (map (code_of (buildCodes root [] ∅)) text))).
Proof.
  split; [|split].
  - intros H. unfold encode. by rewrite encode_loop_ok.
  - intros e. split.
    + apply encode_loop_fail.
    + intros (-> & ch & Hin & Hnone). by eapply encode_loop_absent.
  - intros L freq root Hf Hr. by eapply built_encode.
Qed.

(** ** Optimality of the table *)

Lemma alt_prefix_free (alt : ascii -> str) (l : list (ascii * Z)) :
  NoDup (map fst l) ->
  (forall s1 s2, s1 ∈ map fst l -> s2 ∈ map fst l -> s1 <> s2 ->
     ~ alt s1 `prefix_of` alt s2) ->
  prefix_free (map (fun p => alt p.1) l).
Proof.
  induction l as [|[s v] l IH]; simpl; [done|].
  intros [Hs Hnd]%NoDup_cons Halt. split.
  - apply Forall_map, Forall_forall. intros [s' v'] Hin. simpl.
    assert (Hs' : s' ∈ map fst l) by (by apply (list_elem_of_fmap_2 fst) in Hin).
    assert (s <> s') by (intros ->; done).
    split; apply Halt; try done; (by left) || (by right).
  - apply IH; [done|]. intros s1 s2 H1 H2. apply Halt; by right.
Qed.

(** No binary prefix code for the table is shorter than what Huffman's
    algorithm yields on its counts. *)
Lemma weighted_length_lower_bound (freq : gmap ascii Z) (c : Z) (alt : ascii -> str) :
  freq <> ∅ ->
  map_Forall (fun _ v => 0 < v) freq ->
  hcost (map snd (map_to_list freq)) c ->
  prefix_code freq alt ->
  c <= weighted_length freq alt.
Proof.
  intros Hne Hpos Hc [Hbin Hpf].
  set (wc := map (fun p : ascii * Z => (p.2, alt p.1)) (map_to_list freq)).
  assert (Hkeys : forall s, s ∈ map fst (map_to_list freq) -> s ∈ dom freq).
  { intros s ([s' v] & -> & Hin%elem_of_map_to_list)%list_elem_of_fmap.
    apply elem_of_dom. by eexists. }
  destruct (prefix_code_profile (sum_list_with (fun p => length p.2) wc) wc)
    as (pd & Hw & Ht & Hcost).
  - done.
  - unfold wc. intros E%map_eq_nil. by apply map_to_list_empty_iff in E.
  - unfold wc. apply Forall_map, Forall_forall. intros [s v] Hin%elem_of_map_to_list.
    simpl. specialize (Hpos s v Hin). simpl in Hpos. lia.
  - unfold wc. apply Forall_map, Forall_forall. intros [s v] Hin. simpl.
    apply Hbin, Hkeys. by apply (list_elem_of_fmap_2 fst) in Hin.
  - unfold wc. rewrite map_map. simpl.
    apply alt_prefix_free; [apply NoDup_fst_map_to_list|].
    intros s1 s2 H1 H2. apply Hpf; by apply Hkeys.
  - assert (E : code_cost wc = weighted_length freq alt).
    { unfold code_cost, weighted_length, wc. by rewrite map_map. }
    rewrite <- E. etrans; [|exact Hcost].
    apply (hcost_optimal _ _ Hc); [|done].
    rewrite Hw. unfold wc. by rewrite map_map.
Qed.

(** Whatever the containers do with ties, the cost of the tree is the same. *)
Lemma cost_independent (L1 L2 : StdLib) (text : str) (freq : gmap ascii Z)
    (r1 r2 : NodePtr) :
  count_freq text = Ok freq ->
  build_tree L1 freq = Ok r1 -> build_tree L2 freq = Ok r2 ->
  cost r1 = cost r2.
Proof.
  intros Hf H1 H2.
  destruct (build_tree_inv L1 text freq r1 Hf H1) as (_ & Ht1 & Hlv1 & Hc1).
  destruct (build_tree_inv L2 text freq r2 Hf H2) as (_ & Ht2 & Hlv2 & Hc2).
  assert (Hle : forall ra rb, htree rb -> leaves rb ≡ₚ map_to_list freq ->
            hcost (map snd (map_to_list freq)) (cost ra) -> cost ra <= cost rb).
  { intros ra rb Htb Hlvb Hca. rewrite (cost_profile rb).
    apply (hcost_optimal _ _ Hca); [|by apply htree_treeable].
    by rewrite profile_weights, Hlvb. }
  pose proof (Hle r1 r2 Ht2 Hlv2 Hc1). pose proof (Hle r2 r1 Ht1 Hlv1 Hc2). lia.
Qed.

(** C7.  Weighted length optimality.  main builds a table for every
    non-empty text that fits an [int]; the table is a binary prefix code for
    the symbols of the text, the encoded stream has as many bits as the
    weighted length of the table, and no binary prefix code for the same
    frequencies has a smaller weighted length.  For "abracadabra" the encoded
    stream has 23 bits, however the containers break ties. *)
Theorem huffman_optimal (L : StdLib) :
  (forall text, text <> [] -> Z.of_nat (length text) <= INT_MAX ->
     exists out, main L text = Ok out) /\
  (forall text freq out,
     count_freq text = Ok freq -> main L text = Ok out ->
     prefix_code freq (code_of (out_codes out)) /\
     Z.of_nat (length (out_encoded out))
       = weighted_length freq (code_of (out_codes out)) /\
     forall alt, prefix_code freq alt ->
       weighted_length freq (code_of (out_codes out)) <= weighted_length freq alt) /\
  (exists out, main L (lit "abracadabra") = Ok out /\
     length (out_encoded out) = 23%nat).
Proof.
  split; [|split].
  - intros text Hne Hlen.
    destruct (main_total L text Hne Hlen) as (? & ? & _ & _ & H). by eexists.
  - intros text freq out Hf
      (freq' & root & enc & dec & Hf' & Hr & He & Hd & ->)%main_Ok.
    rewrite Hf in Hf'. injection Hf' as <-. simpl.
    destruct (build_tree_inv L text freq root Hf Hr) as (Hc & Ht & Hlv & Hh).
    rewrite (built_encode L text freq root Hf Hr) in He. injection He as <-.
    rewrite (built_encoded_length L text freq root Hf Hr).
    rewrite (built_weighted_length L text freq root Hf Hr).
    split; [|split; [done|]].
    + split.
      * intros s [p Hp]%(counts_dom text freq s Hc)%(built_codes_dom L text freq root Hf Hr).
        unfold code_of. rewrite Hp. simpl.
        apply (built_codes_lookup L text freq root Hf Hr) in Hp as [f Hin].
        pose proof (leaf_list_binary root) as Hb. rewrite Forall_forall in Hb.
        by apply (Hb _ Hin).
      * intros s1 s2.
        intros [p1 Hp1]%(counts_dom text freq s1 Hc)%(built_codes_dom L text freq root Hf Hr).
        intros [p2 Hp2]%(counts_dom text freq s2 Hc)%(built_codes_dom L text freq root Hf Hr).
        intros Hs. unfold code_of. rewrite Hp1, Hp2. simpl.
        apply (built_codes_lookup L text freq root Hf Hr) in Hp1 as [f1 H1].
        apply (built_codes_lookup L text freq root Hf Hr) in Hp2 as [f2 H2].
        intros Hp.
        pose proof (prefix_free_elem snd _ _ _ (leaf_list_prefix_free root) H1 H2 Hp).
        congruence.
    + intros alt Halt. apply weighted_length_lower_bound; try done.
      * intros ->. by rewrite build_tree_empty in Hr.
      * intros s v. by apply (counts_pos text).
  - destruct (main_total L (lit "abracadabra")) as (freq & root & Hf & Hr & Hmain);
      [done|by vm_compute|].
    eexists. split; [exact Hmain|]. cbn [out_encoded].
    destruct example_tree_built as (freq' & Hf' & Hr').
    rewrite Hf in Hf'. injection Hf' as <-.
    pose proof (built_encoded_length L _ freq root Hf Hr) as Hlen.
    rewrite (cost_independent L ScanLib _ freq root example_tree Hf Hr Hr') in Hlen.
    change (cost example_tree) with 23 in Hlen. lia.
Qed.

(** * Further properties of the code *)

(** ** encode and decode compose *)

Lemma encode_loop_acc (text : str) (codes : gmap ascii str) (result : str) :
  encode_loop text codes result
  = (r ← encode_loop text codes []; Ok (result ++ r)).
Proof.
  revert result. induction text as [|ch text IH]; intros result; simpl.
  - by rewrite app_nil_r.
  - destruct (codes !! ch) as [c|]; [|done]. rewrite IH, (IH c).
    destruct (encode_loop text codes []); simpl; [by rewrite app_assoc|done].
Qed.

Lemma encode_loop_app (t1 t2 : str) (codes : gmap ascii str) (result : str) :
  encode_loop (t1 ++ t2) codes result
  = (r1 ← encode_loop t1 codes result; encode_loop t2 codes r1).
Proof.
  revert result. induction t1 as [|ch t1 IH]; intros result; simpl; [done|].
  destruct (codes !! ch) as [c|]; [apply IH|done].
Qed.

(** X7.  Encoding a concatenation is concatenating the encodings; it fails
    when one of the two parts fails. *)
Theorem encode_app (t1 t2 : str) (codes : gmap ascii str) :
  encode (t1 ++ t2) codes
  = (r1 ← encode t1 codes; r2 ← encode t2 codes; Ok (r1 ++ r2)).
Proof.
  unfold encode. rewrite encode_loop_app.
  destruct (encode_loop t1 codes []) as [r1|e]; simpl; [|done].
  apply encode_loop_acc.
Qed.

Lemma decode_loop_acc (root : NodePtr) (stream : str) (t : NodePtr) (result : str) :
  decode_loop root stream (t, result)
  = (st ← decode_loop root stream (t, []); Ok (st.1, result ++ st.2)).
Proof.
  revert t result. induction stream as [|b stream IH]; intros t result; simpl.
  - by rewrite app_nil_r.
  - unfold decode_step. simpl. destruct (child b t) as [c1|e]; simpl; [|done].
    destruct c1 as [|ch f l r]; simpl; [done|].
    destruct (is_nullptr l && is_nullptr r); simpl.
    + rewrite IH, (IH root [ch]).
      destruct (decode_loop root stream (root, [])) as [[t' out]|e]; simpl; [|done].
      by rewrite <- app_assoc.
    + apply IH.
Qed.

(** X8.  When a stream ends on a symbol boundary, decoding it followed by a
    second stream yields the first text followed by the decoding of the
    second stream. *)
Theorem decode_app (root : NodePtr) (s1 s2 out1 : str) :
  decode_loop root s1 (root, []) = Ok (root, out1) ->
  decode (s1 ++ s2) root = (out2 ← decode s2 root; Ok (out1 ++ out2)).
Proof.
  intros H1. unfold decode. rewrite decode_loop_app, H1. simpl.
  rewrite decode_loop_acc.
  by destruct (decode_loop root s2 (root, [])) as [[t out]|e].
Qed.

Lemma decode_app_witness :
  decode (lit "0" ++ lit "100") example_tree
  = (out2 ← decode (lit "100") example_tree; Ok (lit "a" ++ out2)).
Proof.
  apply (decode_app example_tree (lit "0") (lit "100") (lit "a")).
  vm_compute. reflexivity.
Defined.

Lemma symbols_child (bit : ascii) (t c1 : NodePtr) :
  child bit t = Ok c1 -> is_leaf t = false ->
  forall s, s ∈ symbols c1 -> s ∈ symbols t.
Proof.
  destruct t as [|ch f l r]; [done|]. simpl. intros Hc Hi s Hs.
  unfold symbols. rewrite leaf_list_internal by done. rewrite map_app, !map_map.
  apply elem_of_app. case_decide; injection Hc as <-; [left|right];
    unfold symbols in Hs; by rewrite (map_ext _ (fun e => e.1.1)) by done.
Qed.

Lemma decode_loop_output (root : NodePtr) (stream : str) (t t' : NodePtr)
    (result out : str) :
  (forall s, s ∈ symbols t -> s ∈ symbols root) ->
  decode_loop root stream (t, result) = Ok (t', out) ->
  exists emitted,
    out = result ++ emitted /\
    (length emitted <= length stream)%nat /\
    Forall (fun s => s ∈ symbols root) emitted.
Proof.
  revert t result. induction stream as [|b stream IH]; intros t result Ht; simpl.
  - intros [= <- <-]. exists []. by rewrite app_nil_r.
  - intros ([t1 r1] & Hstep & Hloop)%bind_Ok.
    unfold decode_step in Hstep. apply bind_Ok in Hstep as (c1 & Hc & Ha).
    simpl in Hc, Ha.
    assert (Hleaf : is_leaf t = false).
    { destruct t as [|ch f l r]; [done|]. simpl in *.
      destruct (is_nullptr l && is_nullptr r) eqn:E; [|done].
      apply andb_true_iff in E as [El Er]. destruct l, r; try done.
      by case_decide; injection Hc as <-. }
    pose proof (symbols_child b t c1 Hc Hleaf) as Hsub.
    destruct c1 as [|ch f l r]; [done|]. simpl in Ha.
    destruct (is_nullptr l && is_nullptr r) eqn:E; injection Ha as <- <-.
    + destruct (IH root (result ++ [ch]) ltac:(done) Hloop) as (em & -> & Hlen & Hall).
      exists (ch :: em). rewrite <- app_assoc. split; [done|]. split; [simpl; lia|].
      constructor; [|done]. apply Ht, Hsub. unfold symbols. simpl. rewrite E. by left.
    + destruct (IH _ result ltac:(intros s Hs; by apply Ht, Hsub) Hloop)
        as (em & -> & Hlen & Hall).
      exists em. split; [done|]. split; [lia|done].
Qed.

(** X9.  decode never returns more symbols than the stream has characters,
    and every symbol it returns is the symbol of a leaf of the tree. *)
Theorem decode_output (stream : str) (root : NodePtr) (out : str) :
  decode stream root = Ok out ->
  (length out <= length stream)%nat /\ Forall (fun s => s ∈ symbols root) out.
Proof.
  unfold decode. intros ([t out'] & H & [= <-])%bind_Ok.
  destruct (decode_loop_output root stream root t [] out' ltac:(done) H)
    as (em & -> & Hlen & Hall).
  done.
Qed.

Lemma decode_output_witness :
  (length (lit "ca") <= length (lit "1000"))%nat /\
  Forall (fun s => s ∈ symbols example_tree) (lit "ca").
Proof.
  apply (decode_output (lit "1000") example_tree (lit "ca")).
  vm_compute. reflexivity.
Defined.

(** X10.  On a null root or a root that is a leaf, decode returns the empty
    text for the empty stream, and dereferences a null pointer on every other
    stream. *)
Theorem decode_without_internal_root (stream : str) (root : NodePtr) :
  is_nullptr root = true \/ is_leaf root = true ->
  decode stream root
  = match stream with [] => Ok [] | _ :: _ => Fail UndefinedBehaviour end.
Proof.
  intros H. destruct stream as [|b stream]; [done|].
  unfold decode. simpl. unfold decode_step. simpl.
  destruct root as [|ch f l r]; [done|]. destruct H as [H|H]; [done|].
  simpl in H. apply andb_true_iff in H as [Hl Hr]. destruct l, r; try done.
  simpl. by case_decide.
Qed.

Lemma decode_without_internal_root_witness :
  decode (lit "01") nullptr = Fail UndefinedBehaviour.
Proof.
  apply (decode_without_internal_root (lit "01") nullptr). left. reflexivity.
Defined.

(** ** The table built by main as a code *)

(** X5.  With two distinct symbols or more, the table and the tree built
    from a text serve every message over the characters of that text, not
    only the text itself: encode succeeds and decode returns the message. *)
Theorem message_roundtrip (L : StdLib) (text : str) (freq : gmap ascii Z)
    (root : NodePtr) (msg : str) :
  count_freq text = Ok freq -> build_tree L freq = Ok root ->
  (2 <= size freq)%nat ->
  (forall ch, ch ∈ msg -> ch ∈ text) ->
  exists encoded,
    encode msg (buildCodes root [] ∅) = Ok encoded /\
    decode encoded root = Ok msg.
Proof.
  intros Hf Hr Hsize Hmsg.
  destruct (build_tree_inv L text freq root Hf Hr) as (Hc & Ht & Hlv & _).
  assert (Hi : is_leaf root = false).
  { apply htree_leaf_count; [done|]. fold (leaf_count root).
    rewrite (built_size L text freq root Hf Hr). lia. }
  eexists. split.
  - unfold encode. apply encode_loop_ok. intros ch Hch.
    by apply (built_codes_dom L text freq root Hf Hr), Hmsg.
  - simpl. unfold decode. rewrite <- (app_nil_r (concat _)).
    rewrite decode_concat; [done|by apply htree_strict|done|].
    intros ch Hch%Hmsg. apply (built_codes_dom L text freq root Hf Hr) in Hch as [p Hp].
    unfold code_of. rewrite Hp. simpl.
    by apply (built_codes_lookup L text freq root Hf Hr).
Qed.

Lemma message_roundtrip_witness :
  exists encoded,
    encode (lit "cab") (buildCodes example_tree [] ∅) = Ok encoded /\
    decode encoded example_tree = Ok (lit "cab").
Proof.
  apply (message_roundtrip ScanLib (lit "abracadabra")
           example_freq example_tree (lit "cab")).
  - vm_compute. reflexivity.
  - vm_compute. reflexivity.
  - vm_compute. lia.
  - intros ch Hch. vm_compute in Hch.
    repeat (apply elem_of_cons in Hch as [->|Hch]; [vm_compute; set_solver|]).
    by apply elem_of_nil in Hch.
Defined.

Lemma encode_Ok_present (text : str) (codes : gmap ascii str) (s : str) :
  encode text codes = Ok s -> forall ch, ch ∈ text -> is_Some (codes !! ch).
Proof.
  intros H ch Hch. destruct (codes !! ch) eqn:E; [by eexists|].
  unfold encode in H. by rewrite (encode_loop_absent text codes [] ch Hch E) in H.
Qed.

(** What encode produces from the table decodes to the message. *)
Lemma encoded_decodes (L : StdLib) (text : str) (freq : gmap ascii Z)
    (root : NodePtr) (m s : str) :
  count_freq text = Ok freq -> build_tree L freq = Ok root ->
  (2 <= size freq)%nat ->
  encode m (buildCodes root [] ∅) = Ok s -> decode s root = Ok m.
Proof.
  intros Hf Hr Hsize Hm.
  destruct (build_tree_inv L text freq root Hf Hr) as (_ & Ht & _).
  assert (Hi : is_leaf root = false).
  { apply htree_leaf_count; [done|]. fold (leaf_count root).
    rewrite (built_size L text freq root Hf Hr). lia. }
  pose proof (encode_Ok_present m _ s Hm) as Hall.
  unfold encode in Hm. rewrite (encode_loop_ok m _ [] Hall) in Hm.
  injection Hm as <-. simpl. unfold decode. rewrite <- (app_nil_r (concat _)).
  rewrite decode_concat; [done|by apply htree_strict|done|].
  intros ch [p Hp]%Hall. unfold code_of. rewrite Hp. simpl.
  by apply (built_codes_lookup L text freq root Hf Hr).
Qed.

(** X6.  With two distinct symbols or more the code is uniquely decodable:
    two messages with the same encoding are the same message. *)
Theorem encode_injective (L : StdLib) (text : str) (freq : gmap ascii Z)
    (root : NodePtr) (m1 m2 s : str) :
  count_freq text = Ok freq -> build_tree L freq = Ok root ->
  (2 <= size freq)%nat ->
  encode m1 (buildCodes root [] ∅) = Ok s ->
  encode m2 (buildCodes root [] ∅) = Ok s ->
  m1 = m2.
Proof.
  intros Hf Hr Hsize H1 H2.
  pose proof (encoded_decodes L text freq root m1 s Hf Hr Hsize H1) as D1.
  pose proof (encoded_decodes L text freq root m2 s Hf Hr Hsize H2) as D2.
  rewrite D1 in D2. by injection D2.
Qed.

Lemma encode_injective_witness :
  lit "ab" = lit "ab".
Proof.
  apply (encode_injective ScanLib (lit "abracadabra")
           example_freq example_tree
           (lit "ab") (lit "ab") (lit "0111")).
  - vm_compute. reflexivity.
  - vm_compute. reflexivity.
  - vm_compute. lia.
  - vm_compute. reflexivity.
  - vm_compute. reflexivity.
Defined.

(** X11.  The table main builds has an entry exactly for the characters that
    occur in the text; every code and the whole encoded stream consist of
    ['0'] and ['1'] only. *)
Theorem table_domain (L : StdLib) (text : str) (out : output) :
  main L text = Ok out ->
  (forall c, is_Some (out_codes out !! c) <-> c ∈ text) /\
  (forall c code, out_codes out !! c = Some code -> binary code) /\
  binary (out_encoded out).
Proof.
  intros (freq & root & enc & dec & Hf & Hr & He & Hd & ->)%main_Ok. simpl.
  assert (Hbin : forall c code, buildCodes root [] ∅ !! c = Some code -> binary code).
  { intros c code [f Hin]%(built_codes_lookup L text freq root Hf Hr).
    pose proof (leaf_list_binary root) as Hb. rewrite Forall_forall in Hb.
    by apply (Hb _ Hin). }
  split; [intros c; by apply (built_codes_dom L text freq root Hf Hr)|].
  split; [done|].
  rewrite (built_encode L text freq root Hf Hr) in He. injection He as <-.
  unfold binary. apply Forall_concat, Forall_map, Forall_forall. intros ch Hch.
  apply (built_codes_dom L text freq root Hf Hr) in Hch as [p Hp].
  unfold code_of. rewrite Hp. simpl. by eapply Hbin.
Qed.

Lemma table_domain_witness :
  exists out,
    main ScanLib (lit "abba") = Ok out /\
    (forall c, is_Some (out_codes out !! c) <-> c ∈ lit "abba") /\
    (forall c code, out_codes out !! c = Some code -> binary code) /\
    binary (out_encoded out).
Proof.
  eexists. split; [vm_compute; reflexivity|].
  apply (table_domain ScanLib (lit "abba")). vm_compute. reflexivity.
Defined.

(** ** buildCodes on any tree and any table *)

Lemma foldl_record_last (code : str) (l : list (ascii * Z * str))
    (codes : gmap ascii str) (c : ascii) :
  c ∈ map (fun e => e.1.1) l ->
  exists e, e ∈ l /\ e.1.1 = c /\
    foldl (record_code code) codes l !! c = Some (code ++ e.2).
Proof.
  revert codes. induction l as [|x l IH]; intros codes Hc; simpl.
  - by apply elem_of_nil in Hc.
  - destruct (decide (c ∈ map (fun e => e.1.1) l)) as [Hin|Hout].
    + destruct (IH (record_code code codes x) Hin) as (e & He & Hk & Hl).
      exists e. split; [by right|done].
    + simpl in Hc. apply elem_of_cons in Hc as [->|Hc]; [|done].
      exists x. split; [by left|]. split; [done|].
      rewrite foldl_record_notin.
      * unfold record_code. apply lookup_insert_eq.
      * intros e He Heq. apply Hout. rewrite <- Heq.
        by apply (list_elem_of_fmap_2 (fun e => e.1.1)).
Qed.

(** X12.  buildCodes only touches the entries of the symbols at the leaves
    of the tree: every other entry of the table passed in is kept, and the
    entry of a leaf symbol becomes the path argument followed by the path of
    a leaf carrying that symbol. *)
Theorem buildCodes_frame (t : NodePtr) (code : str) (codes : gmap ascii str) (c : ascii) :
  (c ∉ symbols t -> buildCodes t code codes !! c = codes !! c) /\
  (c ∈ symbols t ->
   exists f p, (c, f, p) ∈ leaf_list t /\
     buildCodes t code codes !! c = Some (code ++ p)).
Proof.
  rewrite buildCodes_foldl. split.
  - intros Hc. apply foldl_record_notin. intros e He <-. apply Hc.
    by apply (list_elem_of_fmap_2 (fun e => e.1.1)).
  - intros Hc. destruct (foldl_record_last code _ codes c Hc) as ([[c' f] p] & He & Hk & Hl).
    simpl in Hk. subst c'. by exists f, p.
Qed.

(** ** Shape of the tree built from a text *)

Lemma htree_depth (t : NodePtr) :
  htree t ->
  forall e, e ∈ leaf_list t -> (length e.2 + 1 <= length (leaf_list t))%nat.
Proof.
  induction 1 as [c f Hf|c f l r Hl IHl Hr IHr Hfreq]; intros e He.
  - apply list_elem_of_singleton in He as ->. simpl. lia.
  - rewrite leaf_list_node in He |- * by done.
    rewrite length_app, !length_map.
    pose proof (treeable_length _ (htree_treeable l Hl)) as H1.
    pose proof (treeable_length _ (htree_treeable r Hr)) as H2.
    unfold profile in H1, H2. rewrite !length_map in H1, H2.
    apply elem_of_app in He as [He|He];
      apply list_elem_of_fmap in He as (e' & -> & He'); simpl.
    + specialize (IHl e' He'). lia.
    + specialize (IHr e' He'). lia.
Qed.

(** X13.  No code is as long as the number of distinct symbols: with N
    distinct symbols every code has at most N - 1 bits. *)
Theorem code_length_bound (L : StdLib) (text : str) (freq : gmap ascii Z)
    (out : output) (c : ascii) (code : str) :
  count_freq text = Ok freq -> main L text = Ok out ->
  out_codes out !! c = Some code ->
  (length code < size freq)%nat.
Proof.
  intros Hf (freq' & root & enc & dec & Hf' & Hr & He & Hd & ->)%main_Ok.
  rewrite Hf in Hf'. injection Hf' as <-. simpl.
  intros [f Hin]%(built_codes_lookup L text freq root Hf Hr).
  destruct (build_tree_inv L text freq root Hf Hr) as (_ & Ht & _).
  pose proof (htree_depth root Ht _ Hin) as Hd'. simpl in Hd'.
  rewrite <- (built_size L text freq root Hf Hr). unfold leaf_count. lia.
Qed.

Lemma code_length_bound_witness :
  (length (lit "111") < size example_freq)%nat.
Proof.
  apply (code_length_bound ScanLib (lit "abracadabra") _
           {| out_codes := buildCodes example_tree [] ∅;
              out_encoded := lit "01111100100010101111100";
              out_decoded := lit "abracadabra" |} "b" (lit "111")).
  - vm_compute. reflexivity.
  - vm_compute. reflexivity.
  - vm_compute. reflexivity.
Defined.

(** X4.  The frequency stored at the root is the length of the text. *)
Theorem root_freq_is_length (L : StdLib) (text : str) (freq : gmap ascii Z)
    (root : NodePtr) :
  count_freq text = Ok freq -> build_tree L freq = Ok root ->
  node_freq root = Z.of_nat (length text).
Proof.
  intros Hf Hr.
  destruct (build_tree_inv L text freq root Hf Hr) as (Hc & Ht & Hlv & _).
  destruct (htree_freq root Ht) as [-> _]. rewrite Hlv.
  by apply counts_total.
Qed.

Lemma root_freq_is_length_witness :
  node_freq example_tree = Z.of_nat (length (lit "abracadabra")).
Proof.
  apply (root_freq_is_length ScanLib (lit "abracadabra")
           example_freq example_tree).
  - vm_compute. reflexivity.
  - vm_compute. reflexivity.
Defined.

Lemma htree_two (t : NodePtr) :
  htree t -> length (leaf_list t) = 2%nat ->
  exists c f c0 f0 c1 f1,
    t = Node c f (Node c0 f0 nullptr nullptr) (Node c1 f1 nullptr nullptr).
Proof.
  destruct 1 as [c f Hf|c f l r Hl Hr Hfreq]; [done|].
  rewrite leaf_list_node by done. rewrite length_app, !length_map. intros Hlen.
  pose proof (treeable_length _ (htree_treeable l Hl)) as H1.
  pose proof (treeable_length _ (htree_treeable r Hr)) as H2.
  unfold profile in H1, H2. rewrite !length_map in H1, H2.
  destruct (htree_single l Hl) as (c0 & f0 & ->); [lia|].
  destruct (htree_single r Hr) as (c1 & f1 & ->); [lia|].
  by exists c, f, c0, f0, c1, f1.
Qed.

(** X14.  With exactly two distinct symbols the codes are the single bits
    "0" and "1", whatever the frequencies: the symbol taken first from the
    queue gets "0", the other "1". *)
Theorem two_symbol_codes (L : StdLib) (text : str) (freq : gmap ascii Z) (out : output) :
  count_freq text = Ok freq -> size freq = 2%nat -> main L text = Ok out ->
  exists s0 s1,
    s0 <> s1 /\ s0 ∈ text /\ s1 ∈ text /\
    out_codes out = <[s1 := lit "1"]> (<[s0 := lit "0"]> ∅).
Proof.
  intros Hf Hsize (freq' & root & enc & dec & Hf' & Hr & He & Hd & ->)%main_Ok.
  rewrite Hf in Hf'. injection Hf' as <-. simpl.
  destruct (build_tree_inv L text freq root Hf Hr) as (Hc & Ht & Hlv & _).
  pose proof (built_size L text freq root Hf Hr) as Hn. unfold leaf_count in Hn.
  rewrite Hsize in Hn.
  pose proof (built_leaves_nodup L text freq root Hf Hr) as Hnd.
  pose proof (built_codes_dom L text freq root Hf Hr) as Hdom.
  destruct (htree_two root Ht Hn) as (c & f & c0 & f0 & c1 & f1 & ->).
  exists c0, c1. simpl in Hnd. apply NoDup_cons in Hnd as [Hne _].
  split; [intros ->; apply Hne; by left|].
  split; [|split; [|done]]; apply Hdom; simpl.
  - destruct (decide (c0 = c1)) as [->|?];
      [rewrite lookup_insert_eq|rewrite lookup_insert_ne, lookup_insert_eq by done];
      by eexists.
  - rewrite lookup_insert_eq. by eexists.
Qed.

Lemma two_symbol_codes_witness :
  exists out,
    main ScanLib (lit "abba") = Ok out /\
    exists s0 s1,
      s0 <> s1 /\ s0 ∈ lit "abba" /\ s1 ∈ lit "abba" /\
      out_codes out = <[s1 := lit "1"]> (<[s0 := lit "0"]> ∅).
Proof.
  eexists. split; [vm_compute; reflexivity|].
  apply (two_symbol_codes ScanLib (lit "abba") {[ "a"%char := 2; "b"%char := 2 ]}).
  - vm_compute. reflexivity.
  - vm_compute. reflexivity.
  - vm_compute. reflexivity.
Defined.

(** ** The frequency counter, lines 101-105 *)

(** X1.  For a text that fits an [int] the counting loop ends with a table
    that maps every character of the text to its number of occurrences and
    has no other entry; the counts add up to the length of the text. *)
Theorem frequency_table (text : str) :
  Z.of_nat (length text) <= INT_MAX ->
  exists freq,
    count_freq text = Ok freq /\
    (forall c, c ∈ text -> freq !! c = Some (occ c text)) /\
    (forall c, c ∉ text -> freq !! c = None) /\
    sumZ (map snd (map_to_list freq)) = Z.of_nat (length text).
Proof.
  intros Hlen. destruct (count_freq_ok text Hlen) as [freq Hf].
  pose proof (count_freq_counts text freq Hf) as Hc.
  exists freq. split; [done|]. split; [|split].
  - intros c Hin. by rewrite (Hc c), decide_True.
  - intros c Hout. by rewrite (Hc c), decide_False.
  - by apply counts_total.
Qed.

Lemma frequency_table_witness :
  exists freq,
    count_freq (lit "abracadabra") = Ok freq /\
    (forall c, c ∈ lit "abracadabra" -> freq !! c = Some (occ c (lit "abracadabra"))) /\
    (forall c, c ∉ lit "abracadabra" -> freq !! c = None) /\
    sumZ (map snd (map_to_list freq)) = Z.of_nat (length (lit "abracadabra")).
Proof. apply (frequency_table (lit "abracadabra")). vm_compute. discriminate. Defined.

(** ** Independence of the standard library's choices *)

(** A second implementation of the containers: the queue serves the most
    recently pushed of the least elements, the table is iterated backwards. *)
Definition StackLib : StdLib := {|
  priority_queue := list NodePtr;
  pq_contents := fun q => q;
  pq_new := [];
  pq_push := fun x q => x :: q;
  pq_top := scan_top;
  pq_pop := scan_pop;
  pq_size := fun q => length q;
  umap_items := fun m => reverse (map_to_list m);
  pq_new_spec := eq_refl;
  pq_push_spec := fun x q => Permutation_refl _;
  pq_size_spec := fun q => eq_refl;
  pq_top_empty := scan_top_empty;
  pq_top_spec := scan_top_spec;
  umap_items_spec := fun m => reverse_Permutation _
|}.

(** X17.  The length of the encoded stream does not depend on how the
    priority queue serves equal frequencies nor on the iteration order of the
    frequency table: two runs on the same text with different containers
    produce streams of the same length. *)
Theorem encoded_length_independent (L1 L2 : StdLib) (text : str) (out1 out2 : output) :
  main L1 text = Ok out1 -> main L2 text = Ok out2 ->
  length (out_encoded out1) = length (out_encoded out2).
Proof.
  intros (freq & r1 & enc1 & dec1 & Hf & Hr1 & He1 & Hd1 & ->)%main_Ok.
  intros (freq' & r2 & enc2 & dec2 & Hf' & Hr2 & He2 & Hd2 & ->)%main_Ok.
  rewrite Hf in Hf'. injection Hf' as <-. simpl.
  rewrite (built_encode L1 text freq r1 Hf Hr1) in He1. injection He1 as <-.
  rewrite (built_encode L2 text freq r2 Hf Hr2) in He2. injection He2 as <-.
  pose proof (built_encoded_length L1 text freq r1 Hf Hr1) as E1.
  pose proof (built_encoded_length L2 text freq r2 Hf Hr2) as E2.
  pose proof (cost_independent L1 L2 text freq r1 r2 Hf Hr1 Hr2). lia.
Qed.

Lemma encoded_length_independent_witness :
  exists out1 out2,
    main ScanLib (lit "abracadabra") = Ok out1 /\
    main StackLib (lit "abracadabra") = Ok out2 /\
    out_codes out1 <> out_codes out2 /\
    length (out_encoded out1) = length (out_encoded out2).
Proof.
  eexists. eexists. split; [vm_compute; reflexivity|].
  split; [vm_compute; reflexivity|]. split; [vm_compute; discriminate|].
  apply (encoded_length_independent ScanLib StackLib (lit "abracadabra"));
    vm_compute; reflexivity.
Defined.

(** ** freeTree, lines 89-94 *)

Lemma delete_node_Ok (x : NodePtr) (heap heap' : list NodePtr) :
  delete_node x heap = Ok heap' -> heap ≡ₚ x :: heap'.
Proof.
  revert heap'. induction heap as [|q heap IH]; intros heap'; simpl; [done|].
  case_decide as Hq.
  - intros [= <-]. by subst q.
  - intros (h & Hh & [= <-])%bind_Ok. rewrite (IH h Hh). apply Permutation_swap.
Qed.

Lemma delete_node_in (x : NodePtr) (heap : list NodePtr) :
  x ∈ heap -> exists heap', delete_node x heap = Ok heap'.
Proof.
  induction heap as [|q heap IH]; simpl; [by intros ?%elem_of_nil|].
  intros Hx. case_decide as Hq; [by eauto|].
  apply elem_of_cons in Hx as [->|Hx]; [done|].
  destruct (IH Hx) as [h ->]. simpl. by eauto.
Qed.

Lemma delete_node_notin (x : NodePtr) (heap : list NodePtr) :
  x ∉ heap -> delete_node x heap = Fail UndefinedBehaviour.
Proof.
  induction heap as [|q heap IH]; simpl; [done|].
  intros [Hq Hx]%not_elem_of_cons. rewrite decide_False by done.
  by rewrite (IH Hx).
Qed.

Lemma freeTree_Ok (t : NodePtr) (heap heap' : list NodePtr) :
  freeTree t heap = Ok heap' -> heap ≡ₚ nodes t ++ heap'.
Proof.
  revert heap heap'. induction t as [|ch f l IHl r IHr]; intros heap heap'; simpl.
  - by intros [= <-].
  - intros (h1 & H1 & (h2 & H2 & H3)%bind_Ok)%bind_Ok.
    rewrite (IHl _ _ H1), (IHr _ _ H2), (delete_node_Ok _ _ _ H3).
    rewrite <- app_assoc. by rewrite <- !Permutation_middle.
Qed.

Lemma freeTree_fail (t : NodePtr) (heap : list NodePtr) (e : fault) :
  freeTree t heap = Fail e -> e = UndefinedBehaviour.
Proof.
  revert heap. induction t as [|ch f l IHl r IHr]; intros heap; simpl; [done|].
  destruct (freeTree l heap) as [h1|e1] eqn:E1; simpl;
    [|intros [= <-]; by eapply IHl].
  destruct (freeTree r h1) as [h2|e2] eqn:E2; simpl;
    [|intros [= <-]; by eapply IHr].
  destruct (decide (Node ch f l r ∈ h2)) as [Hin|Hout].
  - destruct (delete_node_in _ _ Hin) as [h ->]. done.
  - rewrite (delete_node_notin _ _ Hout). by intros [= <-].
Qed.

(** X16.  freeTree releases every node reachable from its argument exactly
    once and nothing else: when these nodes are all allocated, it ends
    without fault and the free store is left with the other allocations.  On
    a null pointer it does nothing. *)
Theorem freeTree_releases (t : NodePtr) (heap : list NodePtr) :
  nodes t ⊆+ heap ->
  exists heap', freeTree t heap = Ok heap' /\ heap ≡ₚ nodes t ++ heap'.
Proof.
  intros Hsub.
  assert (Hok : exists heap', freeTree t heap = Ok heap').
  { revert heap Hsub. induction t as [|ch f l IHl r IHr]; intros heap Hsub; simpl.
    - by eauto.
    - simpl in Hsub.
      assert (Hl : nodes l ⊆+ heap).
      { etrans; [|exact Hsub]. apply submseteq_cons, submseteq_inserts_r. done. }
      destruct (IHl heap Hl) as [h1 H1]. rewrite H1. simpl.
      pose proof (freeTree_Ok _ _ _ H1) as P1.
      assert (Hr : Node ch f l r :: nodes r ⊆+ h1).
      { apply (submseteq_app_inv_l _ _ (nodes l)). rewrite <- P1.
        by rewrite <- Permutation_middle. }
      destruct (IHr h1) as [h2 H2]; [etrans; [|exact Hr]; by apply submseteq_cons|].
      rewrite H2. simpl. pose proof (freeTree_Ok _ _ _ H2) as P2.
      apply delete_node_in, singleton_submseteq_l.
      apply (submseteq_app_inv_l _ _ (nodes r)). rewrite <- P2.
      by rewrite <- Permutation_cons_append. }
  destruct Hok as [heap' H]. exists heap'. split; [done|]. by apply freeTree_Ok.
Qed.

Lemma freeTree_releases_witness :
  exists heap',
    freeTree example_tree (newNode "z" 1 :: nodes example_tree) = Ok heap' /\
    newNode "z" 1 :: nodes example_tree ≡ₚ nodes example_tree ++ heap'.
Proof.
  apply (freeTree_releases example_tree (newNode "z" 1 :: nodes example_tree)).
  by apply submseteq_cons.
Defined.

(** X21.  Releasing a tree a second time is a fault: once the node at the
    root is no longer allocated, freeTree on it ends in undefined behaviour. *)
Theorem freeTree_twice_faults (t : NodePtr) (heap : list NodePtr) :
  is_nullptr t = false -> t ∉ heap ->
  freeTree t heap = Fail UndefinedBehaviour.
Proof.
  intros Hnn Hout. destruct (freeTree t heap) as [heap'|e] eqn:E.
  - exfalso. apply Hout. rewrite (freeTree_Ok _ _ _ E).
    destruct t; [done|]. simpl. by left.
  - by rewrite (freeTree_fail _ _ _ E).
Qed.

Lemma freeTree_twice_faults_witness :
  freeTree example_tree [] = Fail UndefinedBehaviour.
Proof.
  apply (freeTree_twice_faults example_tree []); [reflexivity|apply not_elem_of_nil].
Defined.

Lemma htree_node_count (t : NodePtr) :
  htree t -> (length (nodes t) + 1 = 2 * length (leaf_list t))%nat.
Proof.
  induction 1 as [c f Hf|c f l r Hl IHl Hr IHr Hfreq]; [done|].
  rewrite leaf_list_node by done. simpl nodes. simpl length.
  rewrite !length_app, !length_map. lia.
Qed.

(** X22.  The tree built for N distinct symbols has 2N - 1 nodes, the N
    leaves made at line 113 and the N - 1 nodes made at line 122, and the
    call of freeTree at line 150 releases them all: nothing is left in a free
    store that held just these nodes. *)
Theorem built_tree_released (L : StdLib) (text : str) (freq : gmap ascii Z)
    (root : NodePtr) :
  count_freq text = Ok freq -> build_tree L freq = Ok root ->
  (length (nodes root) + 1 = 2 * size freq)%nat /\
  freeTree root (nodes root) = Ok [].
Proof.
  intros Hf Hr.
  destruct (build_tree_inv L text freq root Hf Hr) as (_ & Ht & _).
  split.
  - rewrite <- (built_size L text freq root Hf Hr). by apply htree_node_count.
  - destruct (freeTree_releases root (nodes root)) as (heap' & H & P); [done|].
    apply Permutation_length in P. rewrite length_app in P.
    destruct heap'; [done|simpl in P; lia].
Qed.

Lemma built_tree_released_witness :
  (length (nodes example_tree) + 1 = 2 * size example_freq)%nat /\
  freeTree example_tree (nodes example_tree) = Ok [].
Proof.
  apply (built_tree_released ScanLib (lit "abracadabra") example_freq example_tree).
  - vm_compute. reflexivity.
  - vm_compute. reflexivity.
Defined.

(** ** More frequent symbols do not get longer codes *)

Lemma weighted_length_delete (freq : gmap ascii Z) (code : ascii -> str)
    (s : ascii) (f : Z) :
  freq !! s = Some f ->
  weighted_length freq code
  = f * Z.of_nat (length (code s)) + weighted_length (delete s freq) code.
Proof.
  intros H. unfold weighted_length. by rewrite <- (map_to_list_delete freq s f H).
Qed.

Lemma weighted_length_ext (freq : gmap ascii Z) (code code' : ascii -> str) :
  (forall s, s ∈ dom freq -> code s = code' s) ->
  weighted_length freq code = weighted_length freq code'.
Proof.
  intros H. unfold weighted_length. f_equal. apply map_ext_in.
  intros [s v] Hin%list_elem_of_In%elem_of_map_to_list. simpl.
  rewrite H; [done|]. apply elem_of_dom. by eexists.
Qed.

Lemma built_prefix_code (L : StdLib) (text : str) (freq : gmap ascii Z) (root : NodePtr) :
  count_freq text = Ok freq -> build_tree L freq = Ok root ->
  prefix_code freq (code_of (buildCodes root [] ∅)).
Proof.
  intros Hf Hr.
  destruct (build_tree_inv L text freq root Hf Hr) as (Hc & _).
  assert (Hcode : forall s, s ∈ dom freq ->
            exists f, (s, f, code_of (buildCodes root [] ∅) s) ∈ leaf_list root).
  { intros s [p Hp]%(counts_dom text freq s Hc)%(built_codes_dom L text freq root Hf Hr).
    unfold code_of. rewrite Hp. simpl.
    by apply (built_codes_lookup L text freq root Hf Hr). }
  split.
  - intros s [f Hin]%Hcode.
    pose proof (leaf_list_binary root) as Hb. rewrite Forall_forall in Hb.
    by apply (Hb _ Hin).
  - intros s1 s2 [f1 H1]%Hcode [f2 H2]%Hcode Hs Hp.
    pose proof (prefix_free_elem snd _ _ _ (leaf_list_prefix_free root) H1 H2 Hp).
    congruence.
Qed.

Lemma swap_codes_prefix_code (freq : gmap ascii Z) (code : ascii -> str) (s1 s2 : ascii) :
  s1 ∈ dom freq -> s2 ∈ dom freq ->
  prefix_code freq code -> prefix_code freq (swap_codes code s1 s2).
Proof.
  intros H1 H2 [Hbin Hpf]. split.
  - intros s Hs. unfold swap_codes. repeat case_decide; by apply Hbin.
  - intros a b Ha Hb Hab. unfold swap_codes.
    repeat case_decide; subst; try done; apply Hpf; done || congruence.
Qed.

(** X15.  In the table main builds, a symbol that occurs more often than
    another never has the longer code. *)
Theorem frequent_symbols_shorter (L : StdLib) (text : str) (freq : gmap ascii Z)
    (out : output) (s1 s2 : ascii) (f1 f2 : Z) :
  count_freq text = Ok freq -> main L text = Ok out ->
  freq !! s1 = Some f1 -> freq !! s2 = Some f2 -> f1 < f2 ->
  (length (code_of (out_codes out) s2) <= length (code_of (out_codes out) s1))%nat.
Proof.
  intros Hf (freq' & root & enc & dec & Hf' & Hr & He & Hd & ->)%main_Ok.
  rewrite Hf in Hf'. injection Hf' as <-. simpl. intros H1 H2 Hlt.
  set (code := code_of (buildCodes root [] ∅)).
  destruct (decide (length (code s2) <= length (code s1))%nat) as [|Hgt]; [done|].
  exfalso.
  destruct (build_tree_inv L text freq root Hf Hr) as (Hc & Ht & Hlv & Hh).
  assert (Hne : s1 <> s2) by (intros ->; rewrite H1 in H2; injection H2; lia).
  assert (D1 : s1 ∈ dom freq) by (apply elem_of_dom; by eexists).
  assert (D2 : s2 ∈ dom freq) by (apply elem_of_dom; by eexists).
  pose proof (built_prefix_code L text freq root Hf Hr) as Hpc. fold code in Hpc.
  pose proof (swap_codes_prefix_code freq code s1 s2 D1 D2 Hpc) as Hswap.
  assert (Hopt : weighted_length freq code
                 <= weighted_length freq (swap_codes code s1 s2)).
  { unfold code. rewrite (built_weighted_length L text freq root Hf Hr).
    apply weighted_length_lower_bound; try done.
    - intros ->. by rewrite build_tree_empty in Hr.
    - intros s v. by apply (counts_pos text). }
  assert (H2' : delete s1 freq !! s2 = Some f2) by (by rewrite lookup_delete_ne).
  rewrite (weighted_length_delete freq code s1 f1 H1) in Hopt.
  rewrite (weighted_length_delete _ code s2 f2 H2') in Hopt.
  rewrite (weighted_length_delete freq (swap_codes code s1 s2) s1 f1 H1) in Hopt.
  rewrite (weighted_length_delete _ (swap_codes code s1 s2) s2 f2 H2') in Hopt.
  rewrite (weighted_length_ext (delete s2 (delete s1 freq)) (swap_codes code s1 s2) code)
    in Hopt.
  - unfold swap_codes in Hopt at 1 2.
    rewrite decide_True in Hopt by done.
    rewrite decide_False, decide_True in Hopt by done. nia.
  - intros s Hs. apply elem_of_dom in Hs as [v Hv].
    unfold swap_codes.
    destruct (decide (s = s1)) as [->|?];
      [by rewrite lookup_delete_ne, lookup_delete_eq in Hv|].
    destruct (decide (s = s2)) as [->|?]; [by rewrite lookup_delete_eq in Hv|done].
Qed.

Lemma frequent_symbols_shorter_witness :
  exists out,
    main ScanLib (lit "abracadabra") = Ok out /\
    (length (code_of (out_codes out) "a") <= length (code_of (out_codes out) "c"))%nat.
Proof.
  eexists. split; [vm_compute; reflexivity|].
  apply (frequent_symbols_shorter ScanLib (lit "abracadabra") example_freq _
           "c" "a" 1 5).
  - vm_compute. reflexivity.
  - vm_compute. reflexivity.
  - vm_compute. reflexivity.
  - vm_compute. reflexivity.
  - lia.
Defined.

(** ** When the builder and main run to completion *)

Lemma add_int_Ok_bound (a b f : Z) : add_int a b = Ok f -> f <= INT_MAX.
Proof. unfold add_int. case_decide; [|done]. intros [= <-]. lia. Qed.

Lemma add_int_fail (a b : Z) (e : fault) :
  add_int a b = Fail e -> e = UndefinedBehaviour.
Proof. unfold add_int. case_decide; [done|]. by intros [= <-]. Qed.

Lemma count_loop_bound (text : str) (freq freq' : gmap ascii Z) :
  map_Forall (fun _ v => v <= INT_MAX) freq ->
  count_loop text freq = Ok freq' ->
  map_Forall (fun _ v => v <= INT_MAX) freq'.
Proof.
  revert freq. induction text as [|ch text IH]; intros freq Hb; simpl.
  - by intros [= <-].
  - intros (freq1 & H1 & H2)%bind_Ok. apply (IH freq1); [|done].
    unfold incr in H1. apply bind_Ok in H1 as (v & Hv & [= <-]).
    apply map_Forall_insert_2; [|done]. by eapply add_int_Ok_bound.
Qed.

Lemma count_loop_fail (text : str) (freq : gmap ascii Z) (e : fault) :
  count_loop text freq = Fail e -> e = UndefinedBehaviour.
Proof.
  revert freq. induction text as [|ch text IH]; intros freq; simpl; [done|].
  unfold incr. destruct (add_int _ 1) as [v|e'] eqn:E; simpl.
  - apply IH.
  - intros [= <-]. by eapply add_int_fail.
Qed.

Lemma decode_loop_fail (root : NodePtr) (stream : str) (st : NodePtr * str) (e : fault) :
  decode_loop root stream st = Fail e -> e = UndefinedBehaviour.
Proof.
  revert st. induction stream as [|b stream IH]; intros st; simpl; [done|].
  destruct (decode_step root st b) as [st'|e'] eqn:E; simpl; [apply IH|].
  intros [= <-]. unfold decode_step in E.
  destruct st as [t result]. simpl in E. destruct t as [|ch f l r]; simpl in E.
  - by injection E.
  - case_decide; simpl in E.
    + destruct l as [|c' f' l' r']; simpl in E; [by injection E|].
      by destruct (is_nullptr l' && is_nullptr r').
    + destruct r as [|c' f' l' r']; simpl in E; [by injection E|].
      by destruct (is_nullptr l' && is_nullptr r').
Qed.

Section LoopBounds.
Variable L : StdLib.

(** The loop keeps every frequency within [int], and its only fault is the
    overflow of a sum: the budget of the model is never exhausted. *)
Lemma merge_loop_bounds (fuel : nat) (pq : priority_queue L) :
  Forall htree (pq_contents L pq) ->
  Forall (fun t => node_freq t <= INT_MAX) (pq_contents L pq) ->
  (length (pq_contents L pq) <= S fuel)%nat ->
  (forall pq', merge_loop L fuel pq = Ok pq' ->
     Forall (fun t => node_freq t <= INT_MAX) (pq_contents L pq')) /\
  (forall e, merge_loop L fuel pq = Fail e -> e = UndefinedBehaviour).
Proof.
  revert pq. induction fuel as [|fuel IH]; intros pq HF Hb Hlen;
    (destruct (decide (length (pq_contents L pq) <= 1)%nat) as [Hsmall|Hbig];
     [rewrite merge_loop_small by done; split; [by intros pq' [= <-]|done]|]);
    [lia|].
  destruct (merge_step_spec L pq) as (x & y & pq2 & Hp & Hx & Hy & Hstep); [lia|done|].
  simpl. rewrite decide_True by (rewrite pq_size_spec; lia). rewrite Hstep.
  rewrite Hp in HF, Hb, Hlen.
  apply Forall_cons in HF as [Htx HF]. apply Forall_cons in HF as [Hty HF].
  apply Forall_cons in Hb as [_ Hb]. apply Forall_cons in Hb as [_ Hb].
  destruct (add_int (node_freq x) (node_freq y)) as [f|e] eqn:Hadd; simpl.
  - pose proof (add_int_Ok_bound _ _ _ Hadd) as Hf.
    apply add_int_Ok in Hadd as ->.
    set (n := Node zero (node_freq x + node_freq y) x y) in *.
    pose proof (pq_push_spec L n pq2) as Hp1.
    apply IH.
    + rewrite Hp1. constructor; [by constructor|done].
    + rewrite Hp1. by constructor.
    + rewrite Hp1. simpl in *. lia.
  - split; [done|]. intros e' [= <-]. by eapply add_int_fail.
Qed.
End LoopBounds.

(** The builder's sums stay within [int], and its only fault is undefined
    behaviour. *)
Lemma build_tree_outcomes (L : StdLib) (freq : gmap ascii Z) :
  map_Forall (fun _ v => 0 < v <= INT_MAX) freq ->
  (forall root, build_tree L freq = Ok root ->
     sumZ (map snd (map_to_list freq)) <= INT_MAX) /\
  (forall e, build_tree L freq = Fail e -> e = UndefinedBehaviour).
Proof.
  intros Hall.
  assert (Hpos : map_Forall (fun _ v => 0 < v) freq).
  { intros k v Hk. by destruct (Hall k v Hk). }
  destruct (build_tree_spec L freq Hpos) as [_ HB].
  pose proof (fill_queue_contents L freq) as HF.
  assert (Hht : Forall htree (pq_contents L (fill_queue L freq))).
  { rewrite HF. apply Forall_map, Forall_forall. intros [k v] Hkv%elem_of_map_to_list.
    constructor. by eapply Hpos. }
  assert (Hbd : Forall (fun t => node_freq t <= INT_MAX) (pq_contents L (fill_queue L freq))).
  { rewrite HF. apply Forall_map, Forall_forall. intros [k v] Hkv%elem_of_map_to_list.
    simpl. by destruct (Hall k v Hkv). }
  destruct (merge_loop_bounds L (pq_size L (fill_queue L freq)) (fill_queue L freq)
              Hht Hbd ltac:(rewrite pq_size_spec; lia)) as [HbOk HbFail].
  split.
  - intros root Hroot. destruct (HB root Hroot) as (Ht & Hlv & _).
    rewrite <- Hlv. destruct (htree_freq root Ht) as [<- _].
    unfold build_tree in Hroot. simpl in Hroot.
    apply bind_Ok in Hroot as (pq' & Hloop & Htop).
    specialize (HbOk pq' Hloop).
    destruct (pq_contents L pq') as [|t ts] eqn:E.
    + by rewrite (pq_top_empty L pq' E) in Htop.
    + destruct (pq_top_spec L pq') as (x & Hx & _ & Hperm); [by rewrite E|].
      rewrite Hx in Htop. injection Htop as ->.
      rewrite Forall_forall in HbOk. apply HbOk. rewrite <- E, Hperm. by left.
  - intros e. unfold build_tree. simpl.
    destruct (merge_loop L _ (fill_queue L freq)) as [pq'|e'] eqn:Hloop; simpl.
    + intros Htop. destruct (pq_contents L pq') as [|t ts] eqn:E.
      * rewrite (pq_top_empty L pq' E) in Htop. by injection Htop.
      * destruct (pq_top_spec L pq') as (x & Hx & _); [by rewrite E|].
        by rewrite Hx in Htop.
    + intros [= <-]. by eapply HbFail.
Qed.

(** X3.  For a table of positive [int] counts the builder returns a tree
    exactly when the table is not empty and the counts add up within [int];
    otherwise it ends in undefined behaviour ([top()] of the empty queue, or a
    sum that overflows) and in no other way. *)
Theorem builder_runs_iff (L : StdLib) (freq : gmap ascii Z) :
  map_Forall (fun _ v => 0 < v <= INT_MAX) freq ->
  ((exists root, build_tree L freq = Ok root) <->
   freq <> ∅ /\ sumZ (map snd (map_to_list freq)) <= INT_MAX) /\
  (forall e, build_tree L freq = Fail e -> e = UndefinedBehaviour).
Proof.
  intros Hall. destruct (build_tree_outcomes L freq Hall) as [Hsum Hfail].
  assert (Hpos : map_Forall (fun _ v => 0 < v) freq).
  { intros k v Hk. by destruct (Hall k v Hk). }
  destruct (build_tree_spec L freq Hpos) as [HA _].
  split; [split|done].
  - intros [root Hroot]. split; [|by eapply Hsum].
    intros ->. by rewrite build_tree_empty in Hroot.
  - intros [Hne Hs]. by apply HA.
Qed.

Lemma builder_runs_iff_witness :
  ((exists root, build_tree ScanLib example_freq = Ok root) <->
   example_freq <> ∅ /\ sumZ (map snd (map_to_list example_freq)) <= INT_MAX) /\
  (forall e, build_tree ScanLib example_freq = Fail e -> e = UndefinedBehaviour).
Proof.
  apply (builder_runs_iff ScanLib example_freq).
  apply (bool_decide_unpack _). vm_compute. reflexivity.
Defined.

(** X2.  main runs to completion exactly on the non-empty texts of at most
    INT_MAX characters.  On every other text it ends in undefined behaviour;
    it never ends with the lookup error of [at()]. *)
Theorem main_runs_iff (L : StdLib) (text : str) :
  ((exists out, main L text = Ok out) <->
   text <> [] /\ Z.of_nat (length text) <= INT_MAX) /\
  (forall e, main L text = Fail e -> e = UndefinedBehaviour).
Proof.
  assert (Hall : forall freq, count_freq text = Ok freq ->
            map_Forall (fun _ v => 0 < v <= INT_MAX) freq).
  { intros freq Hf k v Hk. split.
    - by eapply (counts_pos text), Hk; apply count_freq_counts.
    - by apply (count_loop_bound text ∅ freq (map_Forall_empty _) Hf k v). }
  split; [split|].
  - intros [out (freq & root & enc & dec & Hf & Hr & _)%main_Ok].
    destruct (build_tree_outcomes L freq (Hall freq Hf)) as [Hsum _].
    specialize (Hsum root Hr).
    rewrite (counts_total freq text (count_freq_counts text freq Hf)) in Hsum.
    split; [|done]. intros ->. injection Hf as <-.
    by rewrite build_tree_empty in Hr.
  - intros [Hne Hlen]. destruct (main_total L text Hne Hlen) as (? & ? & _ & _ & H).
    by eexists.
  - intros e. unfold main.
    destruct (count_freq text) as [freq|e1] eqn:Hf; simpl;
      [|intros [= <-]; by eapply count_loop_fail].
    specialize (Hall freq eq_refl).
    destruct (build_tree L freq) as [root|e2] eqn:Hr; simpl.
    + rewrite (built_encode L text freq root Hf Hr). simpl.
      unfold decode.
      destruct (decode_loop root _ (root, [])) as [st|e3] eqn:Hd; simpl; [done|].
      intros [= <-]. by eapply decode_loop_fail.
    + intros [= <-]. destruct (build_tree_outcomes L freq Hall) as [_ Hfail].
      by apply Hfail.
Qed.

(** ** Instances of the theorems on one and on several symbols *)

Lemma roundtrip_two_symbols_witness :
  exists out,
    main ScanLib (lit "abracadabra") = Ok out /\
    out_decoded out = lit "abracadabra".
Proof.
  eexists. split; [vm_compute; reflexivity|].
  apply (roundtrip_two_symbols ScanLib (lit "abracadabra") example_freq).
  - vm_compute. reflexivity.
  - vm_compute. lia.
  - vm_compute. reflexivity.
Defined.

Lemma single_symbol_decodes_empty_witness :
  exists out,
    main ScanLib (lit "aaaa") = Ok out /\
    out_encoded out = [] /\ out_decoded out = [] /\ out_decoded out <> lit "aaaa".
Proof.
  eexists. split; [vm_compute; reflexivity|].
  apply (single_symbol_decodes_empty ScanLib (lit "aaaa") {[ "a"%char := 4 ]}).
  - vm_compute. reflexivity.
  - vm_compute. reflexivity.
  - vm_compute. reflexivity.
Defined.

Lemma codes_nonempty_binary_witness :
  lit "111" <> [] /\ binary (lit "111").
Proof.
  apply (codes_nonempty_binary ScanLib (lit "abracadabra") example_freq
           {| out_codes := buildCodes example_tree [] ∅;
              out_encoded := lit "01111100100010101111100";
              out_decoded := lit "abracadabra" |} "b" (lit "111")).
  - vm_compute. reflexivity.
  - vm_compute. lia.
  - vm_compute. reflexivity.
  - vm_compute. reflexivity.
Defined.

Lemma decode_total_two_symbols_witness :
  exists out, decode (lit "0110x1") example_tree = Ok out.
Proof.
  apply (decode_total_two_symbols ScanLib (lit "abracadabra") example_freq
           example_tree (lit "0110x1")).
  - vm_compute. reflexivity.
  - vm_compute. lia.
  - vm_compute. reflexivity.
Defined.
